(** * nana::filesystem — directory_iterator

    A shallow embedding of [include/nana/filesystem/filesystem.hpp]: the
    value types [path] and [directory_entry], and the class
    [directory_iterator] with its two platform branches (the
    [NANA_WINDOWS] branch over [FindFirstFile]/[FindNextFile], the
    [NANA_LINUX] branch over [opendir]/[readdir]/[stat]).

    The operating system is an explicit state: the iterator only holds a
    handle, the entries still to be returned for that handle live in the
    system's handle table, so two copies of an iterator share one cursor
    exactly as the C++ copies do. *)

From Stdlib Require Import ZArith String Ascii Bool Lia.
From stdpp Require Import gmap strings list fin_maps.

Local Open Scope string_scope.

(** ** Text

    [nana::string], [std::string] and the NUL-terminated buffers
    [cFileName] / [d_name] are all modelled by [string]: the characters
    before the terminator.  [nana::charset] only changes the encoding of
    a text, never its characters, so it is the identity here.  Reading
    a buffer at its end gives the terminator, NUL. *)

Definition charset (s : string) : string := s.

(** ** path *)

Record path := { text_ : string }.

(** [path::path()] *)
Definition path_default : path := {| text_ := "" |}.

Section PathName.
(** The separator convention of the host platform. *)
Variable is_separator : ascii -> bool.

(** The text after the last separator; [None] when there is none. *)
Fixpoint after_last_separator (s : string) : option string :=
  match s with
  | EmptyString => None
  | String c s' =>
      match after_last_separator s' with
      | Some t => Some t
      | None => if is_separator c then Some s' else None
      end
  end.

(** Modelled from the spec: [path::name()] is declared in the header and
    defined in a translation unit that is not part of the sources; it
    "returns the final component of the path (substring after the last
    separator, or the whole text if none)". *)
Definition path_name (p : path) : string :=
  match after_last_separator (text_ p) with
  | Some t => t
  | None => text_ p
  end.
End PathName.

(** ** directory_entry *)

Record directory_entry := {
  m_path : path;
  size : Z;            (* unsigned long *)
  directory : bool
}.

(** [directory_entry(filename, is_directory, size)] *)
Definition value_type (filename : string) (is_directory : bool) (sz : Z)
  : directory_entry :=
  {| m_path := {| text_ := filename |}; size := sz; directory := is_directory |}.

(** Modelled from the spec: [directory_entry::directory_entry()] is only
    declared in the header; the default entry is "empty path, size 0,
    not-directory". *)
Definition directory_entry_default : directory_entry :=
  {| m_path := path_default; size := 0; directory := false |}.

(** ** The skip filter

<<
    static bool _m_ignore(const Char * p)
    { while( *p == '.' ) ++p;  return ( *p == 0 ); }
>>
    The loop runs over the leading ['.'] characters; the result is whether
    the character it stops at is the terminator: the end of the text, or
    a NUL character in it. *)
Fixpoint _m_ignore (p : string) : bool :=
  match p with
  | EmptyString => true
  | String c p' =>
      if Ascii.eqb c "." then _m_ignore p' else Ascii.eqb c Ascii.zero
  end.

(** A name made of ['.'] characters only. *)
Fixpoint only_dots (s : string) : Prop :=
  match s with
  | EmptyString => True
  | String c s' => c = "."%char /\ only_dots s'
  end.

(** ** The find data of the Windows API

    [WIN32_FIND_DATA] as far as the iterator reads it. *)
Record WIN32_FIND_DATA := {
  dwFileAttributes : Z;   (* DWORD *)
  nFileSizeHigh : Z;      (* DWORD *)
  nFileSizeLow : Z;       (* DWORD *)
  cFileName : string      (* TCHAR[MAX_PATH] *)
}.

Definition FILE_ATTRIBUTE_DIRECTORY : Z := 16.          (* 0x10 *)
Definition INVALID_FILE_ATTRIBUTES : Z := 4294967295.   (* (DWORD)-1 *)

(** [value_type(wfd_.cFileName,
      (FILE_ATTRIBUTE_DIRECTORY & wfd_.dwFileAttributes) == FILE_ATTRIBUTE_DIRECTORY,
      wfd_.nFileSizeLow)] *)
Definition entry_of_find_data (wfd : WIN32_FIND_DATA) : directory_entry :=
  value_type (cFileName wfd)
    (Z.land FILE_ATTRIBUTE_DIRECTORY (dwFileAttributes wfd) =? FILE_ATTRIBUTE_DIRECTORY)%Z
    (nFileSizeLow wfd).

(** A search or directory handle; [None] is the null handle. *)
Definition find_handle_t := nat.

(** How an iterator is driven: by [++it] or by [it++]. *)
Inductive increment := pre_increment | post_increment.

(** * The NANA_WINDOWS branch *)
Module Windows.

(** The part of the system the iterator talks to: the attributes of a
    path, the entries a search pattern matches (in native order; none when
    [FindFirstFile] fails), and for every open search handle the entries
    it has not returned yet. *)
Record system := {
  attributes : string -> Z;
  matching : string -> list WIN32_FIND_DATA;
  searches : gmap find_handle_t (list WIN32_FIND_DATA)
}.

Definition with_searches (s : system)
    (m : gmap find_handle_t (list WIN32_FIND_DATA)) : system :=
  {| attributes := attributes s; matching := matching s; searches := m |}.

Definition GetFileAttributes (s : system) (file : string) : Z := attributes s file.

(** [FindFirstFile]: [None] is [INVALID_HANDLE_VALUE]; otherwise a new
    handle, the first match, and the system with the rest pending. *)
Definition FindFirstFile (s : system) (pat : string)
  : option (find_handle_t * WIN32_FIND_DATA * system) :=
  match matching s pat with
  | [] => None
  | e :: rest =>
      let h := fresh (dom (searches s)) in
      Some (h, e, with_searches s (<[h := rest]> (searches s)))
  end.

(** [FindNextFile]: [None] is the return value 0. *)
Definition FindNextFile (s : system) (h : find_handle_t)
  : option (WIN32_FIND_DATA * system) :=
  match searches s !! h with
  | Some (e :: rest) => Some (e, with_searches s (<[h := rest]> (searches s)))
  | _ => None
  end.

Definition FindClose (s : system) (h : find_handle_t) : system :=
  with_searches s (delete h (searches s)).

(** Entries of handle [h] not yet returned. *)
Definition pending (s : system) (h : find_handle_t) : list WIN32_FIND_DATA :=
  default [] (searches s !! h).

(** The loop shared by [_m_prepare] and [_m_read],
<<
    while(_m_ignore(wfd_.cFileName))
      if(::FindNextFile(handle, &wfd_) == 0) { end_ = true; ...; return; }
>>
    run on the entries the handle has pending: each [FindNextFile] takes
    the next one.  The result is the find data the loop stops with, the
    entries left, and whether the loop ended normally ([true]) or through
    the failing [FindNextFile] ([false]). *)
Fixpoint skip_ignored (wfd : WIN32_FIND_DATA) (rest : list WIN32_FIND_DATA)
  : bool * WIN32_FIND_DATA * list WIN32_FIND_DATA :=
  if _m_ignore (cFileName wfd) then
    match rest with
    | [] => (false, wfd, [])
    | e :: rest' => skip_ignored e rest'
    end
  else (true, wfd, rest).

(** The same loop on the system. *)
Definition skip (s : system) (h : find_handle_t) (wfd : WIN32_FIND_DATA)
  : bool * WIN32_FIND_DATA * system :=
  let '(ok, wfd', rest) := skip_ignored wfd (pending s h) in
  (ok, wfd', with_searches s (alter (fun _ => rest) h (searches s))).

Record directory_iterator := {
  end_ : bool;
  wfd_ : WIN32_FIND_DATA;
  path_ : string;
  find_ptr_ : option find_handle_t;   (* std::shared_ptr<find_handle_t> *)
  handle_ : option find_handle_t;
  value_ : directory_entry
}.

Definition set_end_ (b : bool) (it : directory_iterator) :=
  {| end_ := b; wfd_ := wfd_ it; path_ := path_ it;
     find_ptr_ := find_ptr_ it; handle_ := handle_ it; value_ := value_ it |}.
Definition set_wfd_ (w : WIN32_FIND_DATA) (it : directory_iterator) :=
  {| end_ := end_ it; wfd_ := w; path_ := path_ it;
     find_ptr_ := find_ptr_ it; handle_ := handle_ it; value_ := value_ it |}.
Definition set_path_ (p : string) (it : directory_iterator) :=
  {| end_ := end_ it; wfd_ := wfd_ it; path_ := p;
     find_ptr_ := find_ptr_ it; handle_ := handle_ it; value_ := value_ it |}.
Definition set_value_ (v : directory_entry) (it : directory_iterator) :=
  {| end_ := end_ it; wfd_ := wfd_ it; path_ := path_ it;
     find_ptr_ := find_ptr_ it; handle_ := handle_ it; value_ := v |}.
Definition set_handle (h : find_handle_t) (it : directory_iterator) :=
  {| end_ := end_ it; wfd_ := wfd_ it; path_ := path_ it;
     find_ptr_ := Some h; handle_ := Some h; value_ := value_ it |}.

(** [directory_iterator():end_(true), handle_(nullptr){}].  The member
    [wfd_] is left uninitialised: [wfd0] is whatever it holds. *)
Definition directory_iterator_end (wfd0 : WIN32_FIND_DATA) : directory_iterator :=
  {| end_ := true; wfd_ := wfd0; path_ := ""; find_ptr_ := None;
     handle_ := None; value_ := directory_entry_default |}.

(** The search pattern of [_m_prepare]:
<<
    auto pat = file_path;
    DWORD attr = ::GetFileAttributes(pat.data());
    if((attr != INVALID_FILE_ATTRIBUTES) && (attr & FILE_ATTRIBUTE_DIRECTORY))
      pat += STR("\\*");
>> *)
Definition search_pattern (s : system) (file_path : string) : string :=
  let pat := file_path in
  let attr := GetFileAttributes s pat in
  if negb (attr =? INVALID_FILE_ATTRIBUTES)%Z
     && negb (Z.land attr FILE_ATTRIBUTE_DIRECTORY =? 0)%Z
  then pat ++ "\*" else pat.

Definition _m_prepare (s : system) (it : directory_iterator) (file_path : string)
  : system * directory_iterator :=
  let it := set_path_ file_path it in
  let pat := search_pattern s file_path in
  match FindFirstFile s pat with
  | None => (s, set_end_ true it)
  | Some (handle, wfd, s) =>
      match skip s handle wfd with
      | (false, wfd, s) => (FindClose s handle, set_end_ true (set_wfd_ wfd it))
      | (true, wfd, s) =>
          let it := set_value_ (entry_of_find_data wfd) (set_wfd_ wfd it) in
          if negb (end_ it) then (s, set_handle handle it) else (s, it)
      end
  end.

(** [directory_iterator(const nana::string& file_path)
      :end_(false), handle_(nullptr) { _m_prepare(file_path); }] *)
Definition directory_iterator_at (wfd0 : WIN32_FIND_DATA) (s : system)
    (file_path : string) : system * directory_iterator :=
  _m_prepare s
    {| end_ := false; wfd_ := wfd0; path_ := ""; find_ptr_ := None;
       handle_ := None; value_ := directory_entry_default |}
    file_path.

Definition _m_read (s : system) (it : directory_iterator)
  : system * directory_iterator :=
  match handle_ it with
  | None => (s, it)
  | Some h =>
      match FindNextFile s h with
      | Some (wfd, s) =>
          match skip s h wfd with
          | (false, wfd, s) => (s, set_end_ true (set_wfd_ wfd it))
          | (true, wfd, s) =>
              (s, set_value_ (entry_of_find_data wfd) (set_wfd_ wfd it))
          end
      | None => (s, set_end_ true it)
      end
  end.

(** [operator*] *)
Definition dereference (it : directory_iterator) : directory_entry := value_ it.

(** [operator++()]: the system and the iterator after the call. *)
Definition pre_incr (s : system) (it : directory_iterator)
  : system * directory_iterator := _m_read s it.

(** [operator++(int)]: the system, the iterator after the call, and the
    returned copy. *)
Definition post_incr (s : system) (it : directory_iterator)
  : system * directory_iterator * directory_iterator :=
  let tmp := it in
  let '(s, it) := _m_read s it in
  (s, it, tmp).

(** The Windows separators. *)
Definition is_separator (c : ascii) : bool :=
  Ascii.eqb c "\" || Ascii.eqb c "/".

Definition name (p : path) : string := path_name is_separator p.

(** [bool equal(const directory_iterator& x) const] *)
Definition equal (this x : directory_iterator) : bool :=
  if end_ this && Bool.eqb (end_ this) (end_ x) then true
  else String.eqb (name (m_path (value_ this))) (name (m_path (value_ x))).

(** [operator==] and [operator!=] *)
Definition op_eq (x y : directory_iterator) : bool := equal x y.
Definition op_ne (x y : directory_iterator) : bool := negb (equal x y).

(** One increment of either kind, keeping the system and the iterator. *)
Definition step (i : increment) (st : system * directory_iterator)
  : system * directory_iterator :=
  match i with
  | pre_increment => pre_incr st.1 st.2
  | post_increment => (post_incr st.1 st.2).1
  end.

(** [n] advances. *)
Fixpoint advance (n : nat) (st : system * directory_iterator)
  : system * directory_iterator :=
  match n with
  | O => st
  | S n' => advance n' (_m_read st.1 st.2)
  end.

(** What every state reached from a construction satisfies: the handle
    only has entries of the listing pending, and a live iterator shows the
    find data it read last, which is a qualifying entry of the listing. *)
Definition shows (l : list WIN32_FIND_DATA) (st : system * directory_iterator)
  : Prop :=
  (forall h, handle_ st.2 = Some h -> pending st.1 h ⊆ l) /\
  (end_ st.2 = false ->
   value_ st.2 = entry_of_find_data (wfd_ st.2) /\
   _m_ignore (cFileName (wfd_ st.2)) = false /\
   wfd_ st.2 ∈ l).

(** [inner_handle_deleter::operator()(find_handle_t * handle)]:
<<
    if(handle && *handle) ::FindClose( *handle );
    delete handle;
>>
    The argument is a pointer to a handle: [None] is the null pointer,
    [Some None] points to a null handle. *)
Definition inner_handle_deleter (s : system)
    (handle : option (option find_handle_t)) : system :=
  match handle with
  | Some (Some h) => FindClose s h
  | _ => s
  end.

(** The destruction of the last iterator that shares [find_ptr_]: the
    [std::shared_ptr] runs its deleter on the handle it owns, when it owns
    one. *)
Definition release (s : system) (it : directory_iterator) : system :=
  match find_ptr_ it with
  | Some h => inner_handle_deleter s (Some (Some h))
  | None => s
  end.

End Windows.

(** * The NANA_LINUX branch *)
Module Linux.

Record dirent := { d_name : string }.

(** [struct stat] as far as the iterator reads it. *)
Record struct_stat := {
  st_mode : Z;
  st_size : Z      (* off_t *)
}.

Definition S_IFMT : Z := 61440.    (* 0170000 *)
Definition S_IFDIR : Z := 16384.   (* 0040000 *)
Definition S_IFREG : Z := 32768.   (* 0100000 *)
Definition S_ISDIR (m : Z) : bool := (Z.land m S_IFMT =? S_IFDIR)%Z.
Definition S_ISREG (m : Z) : bool := (Z.land m S_IFMT =? S_IFREG)%Z.

(** Conversion of an [off_t] to [unsigned long] (64 bits wide on LP64). *)
Definition to_unsigned_long (z : Z) : Z := (z mod 2 ^ 64)%Z.

(** [path_[path_.size() - 1]] *)
Fixpoint back (s : string) : ascii :=
  match s with
  | EmptyString => Ascii.zero
  | String c EmptyString => c
  | String _ s' => back s'
  end.

(** The part of the system the iterator talks to: the entries of every
    directory that can be opened (in native order; [None] when [opendir]
    returns NULL), what [stat] reports for a path ([None] when it fails),
    and for every open directory handle the entries not yet read. *)
Record system := {
  directories : string -> option (list dirent);
  inodes : string -> option struct_stat;
  streams : gmap find_handle_t (list dirent)
}.

Definition with_streams (s : system) (m : gmap find_handle_t (list dirent))
  : system :=
  {| directories := directories s; inodes := inodes s; streams := m |}.

(** [opendir]: [None] is the null handle. *)
Definition opendir (s : system) (dir : string) : option (find_handle_t * system) :=
  match directories s dir with
  | None => None
  | Some entries =>
      let h := fresh (dom (streams s)) in
      Some (h, with_streams s (<[h := entries]> (streams s)))
  end.

(** [readdir]: [None] is the null pointer. *)
Definition readdir (s : system) (h : find_handle_t) : option (dirent * system) :=
  match streams s !! h with
  | Some (e :: rest) => Some (e, with_streams s (<[h := rest]> (streams s)))
  | _ => None
  end.

Definition closedir (s : system) (h : find_handle_t) : system :=
  with_streams s (delete h (streams s)).

(** [stat(file, &fst) == 0] holds exactly when the result is [Some fst]. *)
Definition stat (s : system) (file : string) : option struct_stat := inodes s file.

(** Entries of handle [h] not yet read. *)
Definition pending (s : system) (h : find_handle_t) : list dirent :=
  default [] (streams s !! h).

(** The loop shared by [_m_prepare] and [_m_read],
<<
    while(_m_ignore(dnt->d_name))
    { dnt = readdir(handle); if(dnt == 0) { ...; return; } }
>>
    run on the entries the handle has pending.  The result is the entry the
    loop stops with, the entries left, and whether the loop ended normally
    ([true]) or through [readdir] returning null ([false]). *)
Fixpoint skip_ignored (dnt : dirent) (rest : list dirent)
  : bool * dirent * list dirent :=
  if _m_ignore (d_name dnt) then
    match rest with
    | [] => (false, dnt, [])
    | e :: rest' => skip_ignored e rest'
    end
  else (true, dnt, rest).

(** The same loop on the system. *)
Definition skip (s : system) (h : find_handle_t) (dnt : dirent)
  : bool * dirent * system :=
  let '(ok, dnt', rest) := skip_ignored dnt (pending s h) in
  (ok, dnt', with_streams s (alter (fun _ => rest) h (streams s))).

Record directory_iterator := {
  end_ : bool;
  path_ : string;
  find_ptr_ : option find_handle_t;   (* std::shared_ptr<find_handle_t> *)
  handle_ : option find_handle_t;
  value_ : directory_entry
}.

Definition set_end_ (b : bool) (it : directory_iterator) :=
  {| end_ := b; path_ := path_ it; find_ptr_ := find_ptr_ it;
     handle_ := handle_ it; value_ := value_ it |}.
Definition set_path_ (p : string) (it : directory_iterator) :=
  {| end_ := end_ it; path_ := p; find_ptr_ := find_ptr_ it;
     handle_ := handle_ it; value_ := value_ it |}.
Definition set_value_ (v : directory_entry) (it : directory_iterator) :=
  {| end_ := end_ it; path_ := path_ it; find_ptr_ := find_ptr_ it;
     handle_ := handle_ it; value_ := v |}.
Definition set_handle (h : find_handle_t) (it : directory_iterator) :=
  {| end_ := end_ it; path_ := path_ it; find_ptr_ := Some h;
     handle_ := Some h; value_ := value_ it |}.

(** The Linux branch assigns [value_.name], a member [directory_entry]
    does not declare; it is read as the text of the stored path, which is
    what the entry's name is everywhere else. *)
Definition set_name (n : string) (v : directory_entry) : directory_entry :=
  {| m_path := {| text_ := n |}; size := size v; directory := directory v |}.
Definition set_size (z : Z) (v : directory_entry) : directory_entry :=
  {| m_path := m_path v; size := z; directory := directory v |}.
Definition set_directory (b : bool) (v : directory_entry) : directory_entry :=
  {| m_path := m_path v; size := size v; directory := b |}.

(** [directory_iterator():end_(true), handle_(nullptr){}] *)
Definition directory_iterator_end : directory_iterator :=
  {| end_ := true; path_ := ""; find_ptr_ := None; handle_ := None;
     value_ := directory_entry_default |}.

(** The last lines of [_m_prepare]:
    [if(false == end_) { find_ptr_ = ...(handle); handle_ = handle; }] *)
Definition keep_handle (handle : find_handle_t) (it : directory_iterator) :=
  if negb (end_ it) then set_handle handle it else it.

(** The directory name of [_m_prepare]:
<<
    path_ = nana::charset(file_path);
    if(path_.size() && (path_[path_.size() - 1] != '/'))
      path_ += '/';
>> *)
Definition directory_path (file_path : string) : string :=
  let p := charset file_path in
  if negb (String.length p =? 0)%nat && negb (Ascii.eqb (back p) "/")
  then p ++ "/" else p.

Definition _m_prepare (s : system) (it : directory_iterator) (file_path : string)
  : system * directory_iterator :=
  let p := directory_path file_path in
  let it := set_path_ p it in
  match opendir s p with
  | None => (s, set_end_ true it)
  | Some (handle, s) =>
      let it := set_end_ true it in
      match readdir s handle with
      | None => (s, keep_handle handle it)
      | Some (dnt, s) =>
          match skip s handle dnt with
          | (false, dnt, s) => (closedir s handle, it)
          | (true, dnt, s) =>
              let it :=
                match stat s (p ++ d_name dnt) with
                | Some fst =>
                    set_value_
                      (value_type (charset (d_name dnt))
                         (S_ISDIR (st_mode fst))
                         (to_unsigned_long (st_size fst))) it
                | None =>
                    set_value_
                      (set_directory false
                         (set_size 0
                            (set_name (charset (d_name dnt)) (value_ it)))) it
                end in
              let it := set_end_ false it in
              (s, keep_handle handle it)
          end
      end
  end.

(** [directory_iterator(const nana::string& file_path)
      :end_(false), handle_(nullptr) { _m_prepare(file_path); }] *)
Definition directory_iterator_at (s : system) (file_path : string)
  : system * directory_iterator :=
  _m_prepare s
    {| end_ := false; path_ := ""; find_ptr_ := None; handle_ := None;
       value_ := directory_entry_default |}
    file_path.

Section Read.
(** The Linux branch of [_m_read] names [wfd_], a member only the
    Windows layout declares and no Linux statement assigns: it is a
    parameter of everything that reads it. *)
Variable wfd_ : WIN32_FIND_DATA.

Definition _m_read (s : system) (it : directory_iterator)
  : system * directory_iterator :=
  match handle_ it with
  | None => (s, it)
  | Some h =>
      match readdir s h with
      | Some (dnt, s) =>
          match skip s h dnt with
          | (false, dnt, s) => (s, set_end_ true it)
          | (true, dnt, s) =>
              match stat s (path_ it ++ "/" ++ d_name dnt) with
              | Some fst => (s, set_value_ (entry_of_find_data wfd_) it)
              | None =>
                  (s, set_value_
                        (set_name (charset (d_name dnt)) (value_ it)) it)
              end
          end
      | None => (s, set_end_ true it)
      end
  end.

(** [operator++()] *)
Definition pre_incr (s : system) (it : directory_iterator)
  : system * directory_iterator := _m_read s it.

(** [operator++(int)]: the system, the iterator after the call, and the
    returned copy. *)
Definition post_incr (s : system) (it : directory_iterator)
  : system * directory_iterator * directory_iterator :=
  let tmp := it in
  let '(s, it) := _m_read s it in
  (s, it, tmp).

Definition step (i : increment) (st : system * directory_iterator)
  : system * directory_iterator :=
  match i with
  | pre_increment => pre_incr st.1 st.2
  | post_increment => (post_incr st.1 st.2).1
  end.

Fixpoint advance (n : nat) (st : system * directory_iterator)
  : system * directory_iterator :=
  match n with
  | O => st
  | S n' => advance n' (_m_read st.1 st.2)
  end.
End Read.

(** [operator*] *)
Definition dereference (it : directory_iterator) : directory_entry := value_ it.

Definition is_separator (c : ascii) : bool := Ascii.eqb c "/".

Definition name (p : path) : string := path_name is_separator p.

(** [bool equal(const directory_iterator& x) const] *)
Definition equal (this x : directory_iterator) : bool :=
  if end_ this && Bool.eqb (end_ this) (end_ x) then true
  else String.eqb (name (m_path (value_ this))) (name (m_path (value_ x))).

Definition op_eq (x y : directory_iterator) : bool := equal x y.
Definition op_ne (x y : directory_iterator) : bool := negb (equal x y).

(** The entry [_m_read] stores for the raw entry [dnt]: built from [wfd_]
    when [stat] succeeds, the old entry under the new name when it fails. *)
Definition read_entry (wfd_ : WIN32_FIND_DATA) (s : system)
    (it : directory_iterator) (dnt : dirent) : directory_entry :=
  match stat s (path_ it ++ "/" ++ d_name dnt) with
  | Some _ => entry_of_find_data wfd_
  | None => set_name (charset (d_name dnt)) (value_ it)
  end.

(** The entry [_m_prepare] stores for the raw entry [dnt] of [dir]. *)
Definition prepared_entry (s : system) (dir : string) (dnt : dirent)
  : directory_entry :=
  match stat s (dir ++ d_name dnt) with
  | Some fst =>
      value_type (charset (d_name dnt)) (S_ISDIR (st_mode fst))
        (to_unsigned_long (st_size fst))
  | None => value_type (charset (d_name dnt)) false 0
  end.

(** A state whose iterator reads the listing [l]: a live iterator holds a
    handle, and the handle only has entries of [l] pending. *)
Definition reads_from (l : list dirent) (st : system * directory_iterator)
  : Prop :=
  (end_ st.2 = false -> is_Some (handle_ st.2)) /\
  (forall h, handle_ st.2 = Some h -> pending st.1 h ⊆ l).

(** [inner_handle_deleter::operator()(find_handle_t * handle)]:
<<
    if(handle && *handle) ::closedir( *handle );
    delete handle;
>>
    The argument is a pointer to a handle: [None] is the null pointer,
    [Some None] points to a null handle. *)
Definition inner_handle_deleter (s : system)
    (handle : option (option find_handle_t)) : system :=
  match handle with
  | Some (Some h) => closedir s h
  | _ => s
  end.

(** The destruction of the last iterator that shares [find_ptr_]: the
    [std::shared_ptr] runs its deleter on the handle it owns, when it owns
    one. *)
Definition release (s : system) (it : directory_iterator) : system :=
  match find_ptr_ it with
  | Some h => inner_handle_deleter s (Some (Some h))
  | None => s
  end.

(** What the constructor leaves in the handle table when the iterator
    holds no handle: the table of before, but for a directory whose
    stream is empty, where the opened handle stays in it. *)
Definition left_open (s : system) (file_path : string)
  : gmap find_handle_t (list dirent) :=
  match directories s (directory_path file_path) with
  | Some [] => <[fresh (dom (streams s)) := []]> (streams s)
  | _ => streams s
  end.

End Linux.

(** * Qualifying entries

    A raw entry qualifies when the skip filter does not ignore its name;
    [qualifying] counts the qualifying entries of a listing. *)
Definition qualifying {A : Type} (name_of : A -> string) (l : list A) : nat :=
  length (List.filter (fun e => negb (_m_ignore (name_of e))) l).

(** The qualifying entries of a listing, in the order of the listing. *)
Definition qualifying_entries {A : Type} (name_of : A -> string) (l : list A)
  : list A :=
  List.filter (fun e => negb (_m_ignore (name_of e))) l.

(** A text without the character [c]. *)
Fixpoint free_of (c : ascii -> bool) (s : string) : Prop :=
  match s with
  | EmptyString => True
  | String a s' => c a = false /\ free_of c s'
  end.

(** The byte length a find data reports: [nFileSizeHigh * (MAXDWORD+1) +
    nFileSizeLow]. *)
Definition file_size (wfd : WIN32_FIND_DATA) : Z :=
  (nFileSizeHigh wfd * 2 ^ 32 + nFileSizeLow wfd)%Z.

(** * Concrete systems *)
Module Fixtures.

(** A regular file of [n] bytes and a directory, as [FindFirstFile] and
    [FindNextFile] report them. *)
Definition win_file (n : Z) (nm : string) : WIN32_FIND_DATA :=
  {| dwFileAttributes := 32; nFileSizeHigh := 0; nFileSizeLow := n;
     cFileName := nm |}.
Definition win_dir (nm : string) : WIN32_FIND_DATA :=
  {| dwFileAttributes := 16; nFileSizeHigh := 0; nFileSizeLow := 0;
     cFileName := nm |}.

(** Whatever an uninitialised [wfd_] holds. *)
Definition win_junk : WIN32_FIND_DATA :=
  {| dwFileAttributes := 0; nFileSizeHigh := 0; nFileSizeLow := 0;
     cFileName := "" |}.

(** [C:\d] holds the single file [a] (10 bytes); [C:\empty] holds
    nothing; no other path exists. *)
Definition win_system : Windows.system :=
  {| Windows.attributes := fun f =>
       if String.eqb f "C:\d" || String.eqb f "C:\empty" then 16%Z
       else INVALID_FILE_ATTRIBUTES;
     Windows.matching := fun pat =>
       if String.eqb pat "C:\d\*"
       then [win_dir "."; win_dir ".."; win_file 10 "a"]
       else if String.eqb pat "C:\empty\*"
       then [win_dir "."; win_dir ".."]
       else [];
     Windows.searches := ∅ |}.

(** [/d] holds the subdirectory [sub] and a name [b] whose [stat] fails (a
    dangling symbolic link); [/d2] holds only such a name [b]; [/empty]
    holds nothing; no other path exists. *)
Definition linux_system : Linux.system :=
  {| Linux.directories := fun d =>
       if String.eqb d "/d/"
       then Some [ {| Linux.d_name := "." |}; {| Linux.d_name := ".." |};
                   {| Linux.d_name := "sub" |}; {| Linux.d_name := "b" |} ]
       else if String.eqb d "/d2/"
       then Some [ {| Linux.d_name := "." |}; {| Linux.d_name := ".." |};
                   {| Linux.d_name := "b" |} ]
       else if String.eqb d "/empty/"
       then Some [ {| Linux.d_name := "." |}; {| Linux.d_name := ".." |} ]
       else None;
     Linux.inodes := fun f =>
       if String.eqb f "/d/sub" || String.eqb f "/d//sub"
       then Some {| Linux.st_mode := 16877; Linux.st_size := 4096 |}
       else None;
     Linux.streams := ∅ |}.



End Fixtures.

(** * Facts about the filter *)

Lemma _m_ignore_only_dots (s : string) : only_dots s -> _m_ignore s = true.
Proof.
  induction s as [|c s IH]; simpl; [reflexivity|].
  intros [-> H]. rewrite Ascii.eqb_refl. auto.
Qed.

Lemma not_ignored_not_only_dots (s : string) :
  _m_ignore s = false -> ~ only_dots s.
Proof. intros H Hd. rewrite (_m_ignore_only_dots s Hd) in H. discriminate. Qed.

Lemma not_ignored_not_empty (s : string) : _m_ignore s = false -> s <> "".
Proof. intros H ->. discriminate. Qed.

Lemma qualifying_cons {A} (name_of : A -> string) (e : A) (l : list A) :
  qualifying name_of (e :: l) =
  if _m_ignore (name_of e) then qualifying name_of l
  else S (qualifying name_of l).
Proof. unfold qualifying. simpl. destruct (_m_ignore (name_of e)); reflexivity. Qed.

Lemma qualifying_zero_iff {A} (name_of : A -> string) (l : list A) :
  qualifying name_of l = 0 <-> Forall (fun e => _m_ignore (name_of e) = true) l.
Proof.
  induction l as [|e l IH]; [split; [constructor | reflexivity]|].
  rewrite qualifying_cons. split.
  - destruct (_m_ignore (name_of e)) eqn:E; [|discriminate].
    intros H. constructor; [assumption | apply IH, H].
  - intros H. inversion H as [|? ? He Hl]; subst. rewrite He. apply IH, Hl.
Qed.

(** * The handle table *)

Lemma alter_pending_id {A} (m : gmap find_handle_t (list A)) (h : find_handle_t) :
  alter (fun _ => default [] (m !! h)) h m = m.
Proof.
  apply map_eq. intros k. destruct (decide (k = h)) as [->|Hne].
  - rewrite lookup_alter_eq. by destruct (m !! h).
  - by rewrite lookup_alter_ne.
Qed.

Lemma alter_after_insert {A} (m : gmap find_handle_t (list A))
    (h : find_handle_t) (x y : list A) :
  is_Some (m !! h) ->
  alter (fun _ => y) h (<[h := x]> m) = alter (fun _ => y) h m.
Proof.
  intros [z Hz]. apply map_eq. intros k. destruct (decide (k = h)) as [->|Hne].
  - by rewrite !lookup_alter_eq, lookup_insert_eq, Hz.
  - by rewrite !lookup_alter_ne, lookup_insert_ne.
Qed.

(** * The Windows branch: what one step does *)
Module WindowsFacts.
Import Windows.

(** [skip] is the loop of the source: while the name in [wfd] is ignored
    it calls [FindNextFile], leaves with [false] when that fails, and goes
    on with the find data it returned otherwise. *)
Lemma win_skip_unfold (s : system) (h : find_handle_t) (wfd : WIN32_FIND_DATA) :
  skip s h wfd =
  if _m_ignore (cFileName wfd) then
    match FindNextFile s h with
    | None => (false, wfd, s)
    | Some (e, s1) => skip s1 h e
    end
  else (true, wfd, s).
Proof.
  assert (Hid : forall l, l = pending s h ->
            with_searches s (alter (fun _ => l) h (searches s)) = s).
  { intros l ->. unfold pending. rewrite alter_pending_id. by destruct s. }
  unfold skip, FindNextFile.
  destruct (pending s h) as [|e rest] eqn:Ep; simpl;
    destruct (_m_ignore (cFileName wfd)) eqn:Ei; rewrite ?Hid by done;
    try reflexivity.
  - unfold pending in Ep.
    by destruct (searches s !! h) as [[|]|].
  - unfold pending in *.
    destruct (searches s !! h) as [[|e' rest']|] eqn:El; simpl in Ep;
      try discriminate.
    injection Ep as -> ->. simpl. rewrite lookup_insert_eq. simpl.
    destruct (skip_ignored e rest) as [[ok wfd'] rest'']. simpl.
    rewrite alter_after_insert by (by rewrite El). reflexivity.
Qed.

(** The loop stops on a qualifying entry and drops exactly the ignored
    entries before it, or finds no qualifying entry at all. *)
Lemma win_skip_ignored_spec (rest : list WIN32_FIND_DATA) : forall wfd,
  match skip_ignored wfd rest with
  | (true, wfd', rest') =>
      _m_ignore (cFileName wfd') = false /\
      S (qualifying cFileName rest') = qualifying cFileName (wfd :: rest) /\
      wfd' ∈ wfd :: rest /\ rest' ⊆ rest
  | (false, _, rest') =>
      qualifying cFileName (wfd :: rest) = 0 /\ rest' = []
  end.
Proof.
  induction rest as [|e rest IH]; intros wfd; simpl;
    rewrite qualifying_cons; destruct (_m_ignore (cFileName wfd)) eqn:E.
  - by split.
  - repeat split; [assumption | apply list_elem_of_here | reflexivity].
  - specialize (IH e). destruct (skip_ignored e rest) as [[[|] wfd'] rest'].
    + destruct IH as (H1 & H2 & H3 & H4). repeat split; try assumption.
      * by apply list_elem_of_further.
      * by apply list_subseteq_cons.
    + assumption.
  - repeat split; [assumption | apply list_elem_of_here | reflexivity].
Qed.

(** What [_m_read] does to an iterator that holds a handle. *)
Lemma win_m_read_spec (s : system) (it : directory_iterator) (h : find_handle_t) :
  handle_ it = Some h ->
  let r := _m_read s it in
  handle_ r.2 = Some h /\ find_ptr_ r.2 = find_ptr_ it /\
  pending r.1 h ⊆ pending s h /\
  match qualifying cFileName (pending s h) with
  | O => end_ r.2 = true /\ value_ r.2 = value_ it
  | S k =>
      end_ r.2 = end_ it /\
      qualifying cFileName (pending r.1 h) = k /\
      value_ r.2 = entry_of_find_data (wfd_ r.2) /\
      _m_ignore (cFileName (wfd_ r.2)) = false /\
      wfd_ r.2 ∈ pending s h
  end.
Proof.
  intros Hh. unfold _m_read, FindNextFile, pending. rewrite Hh.
  destruct (searches s !! h) as [[|e rest]|] eqn:El; simpl;
    [by rewrite El | | by rewrite El].
  unfold skip, pending; simpl. rewrite lookup_insert_eq; simpl.
  pose proof (win_skip_ignored_spec rest e) as Hs.
  destruct (skip_ignored e rest) as [[[|] wfd'] rest']; simpl;
    rewrite lookup_alter_eq, lookup_insert_eq; simpl.
  - destruct Hs as (H1 & H2 & H3 & H4).
    rewrite <- H2. repeat split; try assumption; try reflexivity.
    by apply list_subseteq_cons.
  - destruct Hs as [Hs ->]. rewrite Hs. repeat split; [done|].
    apply list_subseteq_nil.
Qed.

(** What the constructor does, by the number of qualifying entries the
    search pattern matches. *)
Lemma win_directory_iterator_at_spec (wfd0 : WIN32_FIND_DATA) (s : system)
    (file_path : string) :
  let r := directory_iterator_at wfd0 s file_path in
  let l := matching s (search_pattern s file_path) in
  match qualifying cFileName l with
  | O =>
      end_ r.2 = true /\ handle_ r.2 = None /\ find_ptr_ r.2 = None /\
      value_ r.2 = directory_entry_default /\ r.1 = s
  | S k =>
      end_ r.2 = false /\
      exists h, handle_ r.2 = Some h /\ find_ptr_ r.2 = Some h /\
        qualifying cFileName (pending r.1 h) = k /\
        value_ r.2 = entry_of_find_data (wfd_ r.2) /\
        _m_ignore (cFileName (wfd_ r.2)) = false /\
        wfd_ r.2 ∈ l /\ pending r.1 h ⊆ l
  end.
Proof.
  unfold directory_iterator_at, _m_prepare, FindFirstFile.
  set (pat := search_pattern s file_path).
  destruct (matching s pat) as [|e rest]; simpl; [by repeat split|].
  set (h := fresh (dom (searches s))).
  assert (Hfresh : searches s !! h = None)
    by (apply not_elem_of_dom, is_fresh).
  unfold skip, pending; simpl. rewrite lookup_insert_eq; simpl.
  pose proof (win_skip_ignored_spec rest e) as Hs.
  destruct (skip_ignored e rest) as [[[|] wfd'] rest']; simpl.
  - destruct Hs as (H1 & H2 & H3 & H4). rewrite <- H2.
    split; [reflexivity|]. exists h. unfold pending; simpl.
    rewrite lookup_alter_eq, lookup_insert_eq; simpl.
    repeat split; try assumption; try reflexivity.
    by apply list_subseteq_cons.
  - destruct Hs as [Hs _]. rewrite Hs. repeat split. unfold FindClose; simpl.
    rewrite alter_insert_eq, delete_insert_id by assumption.
    by destruct s.
Qed.

(** [_m_read] never clears the end flag. *)
Lemma win_m_read_end (s : system) (it : directory_iterator) :
  end_ it = true -> end_ (_m_read s it).2 = true.
Proof.
  intros He. unfold _m_read. destruct (handle_ it) as [h|]; [|done].
  destruct (FindNextFile s h) as [[wfd s1]|]; [|done].
  by destruct (skip s1 h wfd) as [[[|] wfd'] s2].
Qed.

Lemma win_post_incr_read (s : system) (it : directory_iterator) :
  post_incr s it = (_m_read s it, it).
Proof. unfold post_incr. by destruct (_m_read s it). Qed.

Lemma win_step_read (i : increment) (st : system * directory_iterator) :
  step i st = _m_read st.1 st.2.
Proof. destruct i; simpl; [done|]. by rewrite win_post_incr_read. Qed.

Lemma win_advance_end (n : nat) (st : system * directory_iterator) :
  end_ st.2 = true -> end_ (advance n st).2 = true.
Proof.
  revert st. induction n as [|n IH]; intros [s it] He; simpl; [done|].
  apply IH. by apply win_m_read_end.
Qed.

(** A live iterator over a handle with [q] qualifying entries pending is
    live after [n] advances exactly when [n <= q]. *)
Lemma win_advance_live (n : nat) : forall s it h,
  handle_ it = Some h -> end_ it = false ->
  end_ (advance n (s, it)).2 = (qualifying cFileName (pending s h) <? n)%nat.
Proof.
  induction n as [|n IH]; intros s it h Hh He; simpl.
  - rewrite He. symmetry. apply Nat.ltb_ge. lia.
  - pose proof (win_m_read_spec s it h Hh) as (H1 & _ & _ & H2).
    destruct (qualifying cFileName (pending s h)) as [|k].
    + destruct H2 as [H2 _]. by rewrite win_advance_end.
    + destruct H2 as (H2 & H3 & _).
      destruct (_m_read s it) as [s' it']; simpl in *.
      rewrite (IH s' it' h H1) by congruence. by rewrite H3.
Qed.

Lemma win_shows_at (wfd0 : WIN32_FIND_DATA) (s : system) (file_path : string) :
  shows (matching s (search_pattern s file_path))
        (directory_iterator_at wfd0 s file_path).
Proof.
  pose proof (win_directory_iterator_at_spec wfd0 s file_path) as H.
  simpl in H. unfold shows.
  destruct (qualifying cFileName (matching s (search_pattern s file_path))).
  - destruct H as (H1 & H2 & _). split; [|congruence].
    intros h Hh. congruence.
  - destruct H as (H1 & h & H2 & _ & _ & H3 & H4 & H5 & H6). split.
    + intros h' Hh'. assert (h' = h) as -> by congruence. assumption.
    + by intros _.
Qed.

Lemma win_shows_read (l : list WIN32_FIND_DATA) (st : system * directory_iterator) :
  shows l st -> shows l (_m_read st.1 st.2).
Proof.
  destruct st as [s it]. unfold shows; simpl. intros [Hp Hv].
  destruct (handle_ it) as [h|] eqn:Hh;
    [|unfold _m_read; rewrite Hh; split; [intros h; simpl; congruence | done]].
  pose proof (win_m_read_spec s it h Hh) as (H1 & _ & H2 & H3).
  specialize (Hp h eq_refl). split.
  - intros h' Hh'. assert (h' = h) as -> by congruence.
    by transitivity (pending s h).
  - intros He. destruct (qualifying cFileName (pending s h)).
    + destruct H3 as [H3 _]. congruence.
    + destruct H3 as (_ & _ & H4 & H5 & H6).
      repeat split; [assumption | assumption | by apply Hp].
Qed.

Lemma win_shows_advance (l : list WIN32_FIND_DATA) (n : nat) :
  forall st, shows l st -> shows l (advance n st).
Proof.
  induction n as [|n IH]; intros st H; simpl; [done|].
  by apply IH, win_shows_read.
Qed.

(** A live iterator reached from a construction holds a handle. *)
Lemma win_live_has_handle (wfd0 : WIN32_FIND_DATA) (s : system)
    (file_path : string) (n : nat) :
  let st := advance n (directory_iterator_at wfd0 s file_path) in
  end_ st.2 = false -> is_Some (handle_ st.2).
Proof.
  assert (Hstep : forall n st,
            (end_ st.2 = false -> is_Some (handle_ st.2)) ->
            end_ (advance n st).2 = false -> is_Some (handle_ (advance n st).2)).
  { clear. induction n as [|n IH]; intros [s it] H; simpl; [done|].
    apply IH; simpl. intros He.
    destruct (handle_ it) as [h|] eqn:Hh.
    - pose proof (win_m_read_spec s it h Hh) as (H1 & _). by rewrite H1.
    - unfold _m_read in *. rewrite Hh in *. simpl in *. by apply H. }
  apply Hstep.
  pose proof (win_directory_iterator_at_spec wfd0 s file_path) as H.
  simpl in H.
  destruct (qualifying cFileName (matching s (search_pattern s file_path))).
  - destruct H as (H & _). congruence.
  - destruct H as (_ & h & H & _). by rewrite H.
Qed.

End WindowsFacts.

(** * The Linux branch: what one step does *)
Module LinuxFacts.
Import Linux.

(** [skip] is the loop of the source: while the name of [dnt] is ignored
    it calls [readdir], leaves with [false] when that returns null, and
    goes on with the entry it returned otherwise. *)
Lemma lin_skip_unfold (s : system) (h : find_handle_t) (dnt : dirent) :
  skip s h dnt =
  if _m_ignore (d_name dnt) then
    match readdir s h with
    | None => (false, dnt, s)
    | Some (e, s1) => skip s1 h e
    end
  else (true, dnt, s).
Proof.
  assert (Hid : forall l, l = pending s h ->
            with_streams s (alter (fun _ => l) h (streams s)) = s).
  { intros l ->. unfold pending. rewrite alter_pending_id. by destruct s. }
  unfold skip, readdir.
  destruct (pending s h) as [|e rest] eqn:Ep; simpl;
    destruct (_m_ignore (d_name dnt)) eqn:Ei; rewrite ?Hid by done;
    try reflexivity.
  - unfold pending in Ep.
    by destruct (streams s !! h) as [[|]|].
  - unfold pending in *.
    destruct (streams s !! h) as [[|e' rest']|] eqn:El; simpl in Ep;
      try discriminate.
    injection Ep as -> ->. simpl. rewrite lookup_insert_eq. simpl.
    destruct (skip_ignored e rest) as [[ok dnt'] rest'']. simpl.
    rewrite alter_after_insert by (by rewrite El). reflexivity.
Qed.

Lemma lin_skip_ignored_spec (rest : list dirent) : forall dnt,
  match skip_ignored dnt rest with
  | (true, dnt', rest') =>
      _m_ignore (d_name dnt') = false /\
      S (qualifying d_name rest') = qualifying d_name (dnt :: rest) /\
      dnt' ∈ dnt :: rest /\ rest' ⊆ rest
  | (false, _, rest') => qualifying d_name (dnt :: rest) = 0 /\ rest' = []
  end.
Proof.
  induction rest as [|e rest IH]; intros dnt; simpl;
    rewrite qualifying_cons; destruct (_m_ignore (d_name dnt)) eqn:E.
  - by split.
  - repeat split; [assumption | apply list_elem_of_here | reflexivity].
  - specialize (IH e). destruct (skip_ignored e rest) as [[[|] dnt'] rest'].
    + destruct IH as (H1 & H2 & H3 & H4). repeat split; try assumption.
      * by apply list_elem_of_further.
      * by apply list_subseteq_cons.
    + assumption.
  - repeat split; [assumption | apply list_elem_of_here | reflexivity].
Qed.

(** What [_m_read] does to an iterator that holds a handle. *)
Lemma lin_m_read_spec (wfd_ : WIN32_FIND_DATA) (s : system)
    (it : directory_iterator) (h : find_handle_t) :
  handle_ it = Some h ->
  let r := _m_read wfd_ s it in
  handle_ r.2 = Some h /\ find_ptr_ r.2 = find_ptr_ it /\
  path_ r.2 = path_ it /\ inodes r.1 = inodes s /\
  pending r.1 h ⊆ pending s h /\
  match qualifying d_name (pending s h) with
  | O => end_ r.2 = true /\ value_ r.2 = value_ it
  | S k =>
      end_ r.2 = end_ it /\
      qualifying d_name (pending r.1 h) = k /\
      exists dnt, dnt ∈ pending s h /\ _m_ignore (d_name dnt) = false /\
        value_ r.2 = read_entry wfd_ s it dnt
  end.
Proof.
  intros Hh. unfold _m_read, readdir, pending. rewrite Hh.
  destruct (streams s !! h) as [[|e rest]|] eqn:El; simpl;
    [by rewrite El | | by rewrite El].
  unfold skip, pending; simpl. rewrite lookup_insert_eq; simpl.
  pose proof (lin_skip_ignored_spec rest e) as Hs.
  destruct (skip_ignored e rest) as [[[|] dnt'] rest']; simpl.
  - destruct Hs as (H1 & H2 & H3 & H4). rewrite <- H2.
    unfold read_entry, stat; simpl.
    destruct (inodes s (path_ it ++ "/" ++ d_name dnt')) eqn:Es; simpl;
      rewrite lookup_alter_eq, lookup_insert_eq; simpl;
      (repeat split; try assumption; try reflexivity;
       [by apply list_subseteq_cons|]);
      exists dnt'; by rewrite Es.
  - destruct Hs as [Hs ->]. rewrite Hs.
    rewrite lookup_alter_eq, lookup_insert_eq; simpl.
    repeat split; [done|]. apply list_subseteq_nil.
Qed.

(** What the constructor does, by what [opendir] finds. *)
Lemma lin_directory_iterator_at_spec (s : system) (file_path : string) :
  let r := directory_iterator_at s file_path in
  let dir := directory_path file_path in
  inodes r.1 = inodes s /\
  match directories s dir with
  | None =>
      end_ r.2 = true /\ handle_ r.2 = None /\ find_ptr_ r.2 = None /\
      value_ r.2 = directory_entry_default /\ r.1 = s
  | Some l =>
      match qualifying d_name l with
      | O =>
          end_ r.2 = true /\ handle_ r.2 = None /\ find_ptr_ r.2 = None /\
          value_ r.2 = directory_entry_default
      | S k =>
          end_ r.2 = false /\ path_ r.2 = dir /\
          exists h, handle_ r.2 = Some h /\ find_ptr_ r.2 = Some h /\
            qualifying d_name (pending r.1 h) = k /\ pending r.1 h ⊆ l /\
            exists dnt, dnt ∈ l /\ _m_ignore (d_name dnt) = false /\
              value_ r.2 = prepared_entry s dir dnt
      end
  end.
Proof.
  unfold directory_iterator_at, _m_prepare, opendir.
  set (dir := directory_path file_path).
  destruct (directories s dir) as [l|]; simpl; [|by repeat split].
  set (h := fresh (dom (streams s))).
  unfold readdir; simpl. rewrite lookup_insert_eq.
  destruct l as [|e rest]; simpl; [by repeat split|].
  unfold skip, pending; simpl. rewrite lookup_insert_eq; simpl.
  pose proof (lin_skip_ignored_spec rest e) as Hs.
  destruct (skip_ignored e rest) as [[[|] dnt'] rest']; simpl.
  - destruct Hs as (H1 & H2 & H3 & H4). rewrite <- H2.
    assert (Hl : alter (fun _ => rest') h
                   (<[h:=rest]> (<[h:=e :: rest]> (streams s))) !! h
                 = Some rest')
      by (by rewrite lookup_alter_eq, lookup_insert_eq).
    unfold prepared_entry, stat; simpl.
    destruct (inodes s (dir ++ d_name dnt')) eqn:Es; simpl;
      (do 3 (split; [reflexivity|])); exists h; rewrite Hl; simpl;
      (repeat split; try assumption; try reflexivity;
       [by apply list_subseteq_cons|]);
      exists dnt'; by rewrite Es.
  - destruct Hs as [Hs _]. rewrite Hs. by repeat split.
Qed.

Section ReadFacts.
Variable wfd_ : WIN32_FIND_DATA.

(** [_m_read] never clears the end flag. *)
Lemma lin_m_read_end (s : system) (it : directory_iterator) :
  end_ it = true -> end_ (_m_read wfd_ s it).2 = true.
Proof.
  intros He. unfold _m_read. destruct (handle_ it) as [h|]; [|done].
  destruct (readdir s h) as [[dnt s1]|]; [|done].
  destruct (skip s1 h dnt) as [[[|] dnt'] s2]; [|done].
  by destruct (stat s2 _).
Qed.

Lemma lin_post_incr_read (s : system) (it : directory_iterator) :
  post_incr wfd_ s it = (_m_read wfd_ s it, it).
Proof. unfold post_incr. by destruct (_m_read wfd_ s it). Qed.

Lemma lin_step_read (i : increment) (st : system * directory_iterator) :
  step wfd_ i st = _m_read wfd_ st.1 st.2.
Proof. destruct i; simpl; [done|]. by rewrite lin_post_incr_read. Qed.

Lemma lin_advance_end (n : nat) (st : system * directory_iterator) :
  end_ st.2 = true -> end_ (advance wfd_ n st).2 = true.
Proof.
  revert st. induction n as [|n IH]; intros [s it] He; simpl; [done|].
  apply IH. by apply lin_m_read_end.
Qed.

Lemma lin_advance_live (n : nat) : forall s it h,
  handle_ it = Some h -> end_ it = false ->
  end_ (advance wfd_ n (s, it)).2 = (qualifying d_name (pending s h) <? n)%nat.
Proof.
  induction n as [|n IH]; intros s it h Hh He; simpl.
  - rewrite He. symmetry. apply Nat.ltb_ge. lia.
  - pose proof (lin_m_read_spec wfd_ s it h Hh) as (H1 & _ & _ & _ & _ & H2).
    destruct (qualifying d_name (pending s h)) as [|k].
    + destruct H2 as [H2 _]. by rewrite lin_advance_end.
    + destruct H2 as (H2 & H3 & _).
      destruct (_m_read wfd_ s it) as [s' it']; simpl in *.
      rewrite (IH s' it' h H1) by congruence. by rewrite H3.
Qed.

Lemma lin_reads_from_read (l : list dirent) (st : system * directory_iterator) :
  reads_from l st -> reads_from l (_m_read wfd_ st.1 st.2).
Proof.
  destruct st as [s it]. unfold reads_from; simpl. intros [Hl Hp].
  destruct (handle_ it) as [h|] eqn:Hh.
  2:{ unfold _m_read. rewrite Hh. simpl. rewrite Hh.
      split; [assumption | intros h; congruence]. }
  pose proof (lin_m_read_spec wfd_ s it h Hh) as (H1 & _ & _ & _ & H2 & _).
  split; [by rewrite H1|].
  intros h' Hh'. assert (h' = h) as -> by congruence.
  transitivity (pending s h); [assumption | by apply Hp].
Qed.

Lemma lin_reads_from_advance (l : list dirent) (n : nat) :
  forall st, reads_from l st -> reads_from l (advance wfd_ n st).
Proof.
  induction n as [|n IH]; intros st H; simpl; [done|].
  by apply IH, lin_reads_from_read.
Qed.

(** An advance that leaves the iterator live has settled on a qualifying
    entry of the listing and stores the entry [_m_read] builds for it. *)
Lemma lin_next_value (l : list dirent) (st : system * directory_iterator) :
  reads_from l st ->
  end_ (_m_read wfd_ st.1 st.2).2 = false ->
  exists dnt, dnt ∈ l /\ _m_ignore (d_name dnt) = false /\
    value_ (_m_read wfd_ st.1 st.2).2 = read_entry wfd_ st.1 st.2 dnt.
Proof.
  destruct st as [s it]. unfold reads_from; simpl. intros [Hl Hp] He.
  assert (Hlive : end_ it = false).
  { destruct (end_ it) eqn:E; [|done].
    by rewrite (lin_m_read_end s it E) in He. }
  destruct (Hl Hlive) as [h Hh].
  pose proof (lin_m_read_spec wfd_ s it h Hh) as (_ & _ & _ & _ & _ & H3).
  destruct (qualifying d_name (pending s h)).
  - destruct H3 as [H3 _]. congruence.
  - destruct H3 as (_ & _ & dnt & Hin & Hi & Hv).
    exists dnt. repeat split; [by apply (Hp h Hh) | assumption | assumption].
Qed.
End ReadFacts.

Lemma prepared_entry_name (s : system) (dir : string) (dnt : dirent) :
  text_ (m_path (prepared_entry s dir dnt)) = d_name dnt.
Proof. unfold prepared_entry. by destruct (stat s _). Qed.

Lemma lin_reads_from_at (s : system) (file_path : string) (l : list dirent) :
  directories s (directory_path file_path) = Some l ->
  reads_from l (directory_iterator_at s file_path).
Proof.
  intros Hd. pose proof (lin_directory_iterator_at_spec s file_path) as [_ H].
  simpl in H. rewrite Hd in H. unfold reads_from.
  destruct (qualifying d_name l).
  - destruct H as (H1 & H2 & _). split; congruence.
  - destruct H as (_ & _ & h & H1 & _ & _ & H2 & _). split.
    + intros _. by rewrite H1.
    + intros h' Hh'. assert (h' = h) as -> by congruence. assumption.
Qed.

(** When the directory cannot be opened the iterator is at end for good. *)
Lemma lin_closed_directory_end (wfd_ : WIN32_FIND_DATA) (s : system)
    (file_path : string) (n : nat) :
  directories s (directory_path file_path) = None ->
  end_ (advance wfd_ n (directory_iterator_at s file_path)).2 = true.
Proof.
  intros Hd. apply lin_advance_end.
  pose proof (lin_directory_iterator_at_spec s file_path) as [_ H].
  simpl in H. rewrite Hd in H. by destruct H.
Qed.

(** A live iterator reached from a construction holds a handle. *)
Lemma lin_live_has_handle (wfd_ : WIN32_FIND_DATA) (s : system)
    (file_path : string) (n : nat) :
  let st := advance wfd_ n (directory_iterator_at s file_path) in
  end_ st.2 = false -> is_Some (handle_ st.2).
Proof.
  intros st He.
  destruct (directories s (directory_path file_path)) as [l|] eqn:Hd.
  - by apply (lin_reads_from_advance wfd_ l n _
                (lin_reads_from_at s file_path l Hd)).
  - pose proof (lin_closed_directory_end wfd_ s file_path n Hd) as H.
    fold st in H. congruence.
Qed.

End LinuxFacts.

(** * Equality *)

(** What [equal] computes: both at end, or equal names of the stored
    entries whatever the end flags are. *)
Lemma win_equal_true_iff (x y : Windows.directory_iterator) :
  Windows.equal x y = true <->
  (Windows.end_ x = true /\ Windows.end_ y = true) \/
  Windows.name (m_path (Windows.value_ x)) =
  Windows.name (m_path (Windows.value_ y)).
Proof.
  unfold Windows.equal. rewrite <- String.eqb_eq.
  destruct (Windows.end_ x), (Windows.end_ y); simpl; intuition congruence.
Qed.

Lemma lin_equal_true_iff (x y : Linux.directory_iterator) :
  Linux.equal x y = true <->
  (Linux.end_ x = true /\ Linux.end_ y = true) \/
  Linux.name (m_path (Linux.value_ x)) = Linux.name (m_path (Linux.value_ y)).
Proof.
  unfold Linux.equal. rewrite <- String.eqb_eq.
  destruct (Linux.end_ x), (Linux.end_ y); simpl; intuition congruence.
Qed.

(** C1, on the code: an iterator over [C:\d] (one file, [a]) that was
    advanced to the end still stores [a], and compares equal, in both
    directions, with a second iterator over [C:\d] that is live on [a];
    the same holds on Linux for [/d], with one iterator advanced once (live
    on [b]) and one advanced twice (at end, still storing [b]).  So an
    at-end iterator and a live one can be equal. *)
Theorem exhausted_iterator_equals_live_one :
  (let '(s1, x) :=
     Windows.directory_iterator_at Fixtures.win_junk Fixtures.win_system "C:\d" in
   let '(s2, y0) := Windows.directory_iterator_at Fixtures.win_junk s1 "C:\d" in
   let '(s3, y) := Windows.pre_incr s2 y0 in
   Windows.end_ x = false /\ Windows.end_ y = true /\
   Windows.op_eq x y = true /\ Windows.op_eq y x = true) /\
  (let '(s1, x0) := Linux.directory_iterator_at Fixtures.linux_system "/d" in
   let '(s2, x) := Linux.pre_incr Fixtures.win_junk s1 x0 in
   let '(s3, y0) := Linux.directory_iterator_at s2 "/d" in
   let '(s4, y) := Linux.advance Fixtures.win_junk 2 (s3, y0) in
   Linux.end_ x = false /\ Linux.end_ y = true /\
   Linux.op_eq x y = true /\ Linux.op_eq y x = true).
Proof. vm_compute. repeat split. Qed.

(** * Construction over a directory that cannot be opened *)

(** C2: when the native open fails ([FindFirstFile] returns
    [INVALID_HANDLE_VALUE], [opendir] returns null) the constructed
    iterator is at end, holds no handle and no shared handle, stores the
    default entry, and the system has no handle more than before; it is
    equal to the default-constructed end iterator, and it has the same end
    flag, handles and entry as (and is equal to) every iterator
    constructed over a directory without qualifying entries. *)
Theorem open_failure_constructs_end :
  (forall wfd0 s file_path,
     Windows.FindFirstFile s (Windows.search_pattern s file_path) = None ->
     let r := Windows.directory_iterator_at wfd0 s file_path in
     Windows.end_ r.2 = true /\ Windows.handle_ r.2 = None /\
     Windows.find_ptr_ r.2 = None /\ r.1 = s /\
     Windows.value_ r.2 = directory_entry_default /\
     (forall wfd1,
        Windows.op_eq r.2 (Windows.directory_iterator_end wfd1) = true /\
        Windows.op_eq (Windows.directory_iterator_end wfd1) r.2 = true) /\
     (forall wfd1 s' file_path',
        Forall (fun e => _m_ignore (cFileName e) = true)
          (Windows.matching s' (Windows.search_pattern s' file_path')) ->
        let r' := Windows.directory_iterator_at wfd1 s' file_path' in
        Windows.end_ r'.2 = Windows.end_ r.2 /\
        Windows.handle_ r'.2 = Windows.handle_ r.2 /\
        Windows.find_ptr_ r'.2 = Windows.find_ptr_ r.2 /\
        Windows.value_ r'.2 = Windows.value_ r.2 /\
        Windows.op_eq r.2 r'.2 = true /\ Windows.op_eq r'.2 r.2 = true)) /\
  (forall s file_path,
     Linux.opendir s (Linux.directory_path file_path) = None ->
     let r := Linux.directory_iterator_at s file_path in
     Linux.end_ r.2 = true /\ Linux.handle_ r.2 = None /\
     Linux.find_ptr_ r.2 = None /\ r.1 = s /\
     Linux.value_ r.2 = directory_entry_default /\
     Linux.op_eq r.2 Linux.directory_iterator_end = true /\
     Linux.op_eq Linux.directory_iterator_end r.2 = true /\
     (forall s' file_path' l,
        Linux.directories s' (Linux.directory_path file_path') = Some l ->
        Forall (fun e => _m_ignore (Linux.d_name e) = true) l ->
        let r' := Linux.directory_iterator_at s' file_path' in
        Linux.end_ r'.2 = Linux.end_ r.2 /\
        Linux.handle_ r'.2 = Linux.handle_ r.2 /\
        Linux.find_ptr_ r'.2 = Linux.find_ptr_ r.2 /\
        Linux.value_ r'.2 = Linux.value_ r.2 /\
        Linux.op_eq r.2 r'.2 = true /\ Linux.op_eq r'.2 r.2 = true)).
Proof.
  split.
  - intros wfd0 s file_path Hopen r.
    assert (Hl : Windows.matching s (Windows.search_pattern s file_path) = []).
    { unfold Windows.FindFirstFile in Hopen.
      by destruct (Windows.matching s _). }
    pose proof (WindowsFacts.win_directory_iterator_at_spec wfd0 s file_path)
      as H.
    simpl in H. rewrite Hl in H. fold r in H.
    destruct H as (He & Hh & Hf & Hv & Hs).
    refine (conj He (conj Hh (conj Hf (conj Hs (conj Hv (conj _ _)))))).
    + intros wfd1. unfold Windows.op_eq, Windows.equal. by rewrite He.
    + intros wfd1 s' file_path' Hall r'.
      pose proof (WindowsFacts.win_directory_iterator_at_spec wfd1 s' file_path')
        as H'.
      simpl in H'. apply (qualifying_zero_iff cFileName) in Hall.
      rewrite Hall in H'. fold r' in H'.
      destruct H' as (He' & Hh' & Hf' & Hv' & _).
      unfold Windows.op_eq, Windows.equal. rewrite He, He', Hh, Hh', Hf, Hf', Hv, Hv'.
      by repeat split.
  - intros s file_path Hopen r.
    assert (Hl : Linux.directories s (Linux.directory_path file_path) = None).
    { unfold Linux.opendir in Hopen.
      by destruct (Linux.directories s _). }
    pose proof (LinuxFacts.lin_directory_iterator_at_spec s file_path)
      as [_ H].
    simpl in H. rewrite Hl in H. fold r in H.
    destruct H as (He & Hh & Hf & Hv & Hs).
    refine (conj He (conj Hh (conj Hf (conj Hs (conj Hv (conj _ (conj _ _))))))).
    + unfold Linux.op_eq, Linux.equal. by rewrite He.
    + unfold Linux.op_eq, Linux.equal. by rewrite He.
    + intros s' file_path' l Hd Hall r'.
      pose proof (LinuxFacts.lin_directory_iterator_at_spec s' file_path')
        as [_ H'].
      simpl in H'. rewrite Hd in H'.
      apply (qualifying_zero_iff Linux.d_name) in Hall.
      rewrite Hall in H'. fold r' in H'.
      destruct H' as (He' & Hh' & Hf' & Hv').
      unfold Linux.op_eq, Linux.equal. rewrite He, He', Hh, Hh', Hf, Hf', Hv, Hv'.
      by repeat split.
Qed.

Lemma open_failure_constructs_end_witness :
  Windows.end_
    (Windows.directory_iterator_at Fixtures.win_junk Fixtures.win_system
       "C:\nowhere").2 = true /\
  Linux.end_ (Linux.directory_iterator_at Fixtures.linux_system "/nowhere").2
  = true.
Proof.
  split.
  - refine (proj1 (proj1 open_failure_constructs_end Fixtures.win_junk
                     Fixtures.win_system "C:\nowhere" _)).
    vm_compute. reflexivity.
  - refine (proj1 (proj2 open_failure_constructs_end
                     Fixtures.linux_system "/nowhere" _)).
    vm_compute. reflexivity.
Defined.

(** * The entries an iterator surfaces *)

Section Surfaced.
(** Any property of names that every name the filter keeps has. *)
Variable kept : string -> Prop.
Hypothesis kept_not_ignored : forall s, _m_ignore s = false -> kept s.

(** Windows: a live iterator, after construction and any number of
    advances, stores the entry built from a kept raw entry of the
    listing. *)
Lemma win_surfaced (wfd0 : WIN32_FIND_DATA) (s : Windows.system)
    (file_path : string) (n : nat) :
  let st := Windows.advance n (Windows.directory_iterator_at wfd0 s file_path) in
  Windows.end_ st.2 = false ->
  kept (text_ (m_path (Windows.value_ st.2))) /\
  exists e, e ∈ Windows.matching s (Windows.search_pattern s file_path) /\
    kept (cFileName e) /\ Windows.value_ st.2 = entry_of_find_data e.
Proof.
  intros st He.
  destruct (WindowsFacts.win_shows_advance _ n _
              (WindowsFacts.win_shows_at wfd0 s file_path)) as [_ H].
  destruct (H He) as (Hv & Hi & Hin). fold st in Hv, Hi, Hin. split.
  - rewrite Hv. by apply kept_not_ignored.
  - exists (Windows.wfd_ st.2). auto.
Qed.

(** Linux: a live iterator, right after construction, stores the entry
    built for a kept raw entry of the directory, under that entry's
    name. *)
Lemma lin_surfaced_first (s : Linux.system) (file_path : string) :
  let it := (Linux.directory_iterator_at s file_path).2 in
  let dir := Linux.directory_path file_path in
  Linux.end_ it = false ->
  kept (text_ (m_path (Linux.value_ it))) /\
  exists l dnt, Linux.directories s dir = Some l /\ dnt ∈ l /\
    kept (Linux.d_name dnt) /\
    Linux.value_ it = Linux.prepared_entry s dir dnt.
Proof.
  intros it dir He.
  pose proof (LinuxFacts.lin_directory_iterator_at_spec s file_path) as [_ H].
  simpl in H. fold it dir in H.
  destruct (Linux.directories s dir) as [l|]; [|destruct H; congruence].
  destruct (qualifying Linux.d_name l); [destruct H; congruence|].
  destruct H as (_ & _ & h & _ & _ & _ & _ & dnt & Hin & Hi & Hv). split.
  - rewrite Hv, LinuxFacts.prepared_entry_name. by apply kept_not_ignored.
  - exists l, dnt. auto.
Qed.

(** Linux: an advance that leaves the iterator live has settled on a kept
    raw entry of the directory and stores what [_m_read] builds for it:
    the old entry under the new name when [stat] fails, the entry built
    from [wfd_] when [stat] succeeds. *)
Lemma lin_surfaced_next (wfd_ : WIN32_FIND_DATA) (s : Linux.system)
    (file_path : string) (n : nat) :
  let st := Linux.advance wfd_ n (Linux.directory_iterator_at s file_path) in
  let st' := Linux._m_read wfd_ st.1 st.2 in
  Linux.end_ st'.2 = false ->
  exists l dnt,
    Linux.directories s (Linux.directory_path file_path) = Some l /\
    dnt ∈ l /\ kept (Linux.d_name dnt) /\
    Linux.value_ st'.2 = Linux.read_entry wfd_ st.1 st.2 dnt /\
    (text_ (m_path (Linux.value_ st'.2)) = Linux.d_name dnt \/
     Linux.value_ st'.2 = entry_of_find_data wfd_).
Proof.
  intros st st' He.
  destruct (Linux.directories s (Linux.directory_path file_path)) as [l|] eqn:Hd.
  - pose proof (LinuxFacts.lin_reads_from_advance wfd_ l n _
                  (LinuxFacts.lin_reads_from_at s file_path l Hd)) as Hr.
    destruct (LinuxFacts.lin_next_value wfd_ l _ Hr He) as (dnt & Hin & Hi & Hv).
    exists l, dnt. fold st st' in Hv.
    repeat split; [assumption | by apply kept_not_ignored | assumption |].
    rewrite Hv. unfold Linux.read_entry.
    destruct (Linux.stat st.1 _); [by right | by left].
  - pose proof (LinuxFacts.lin_closed_directory_end wfd_ s file_path (S n) Hd)
      as Hend.
    simpl in Hend.
    assert (Hst : Linux.advance wfd_ n
              (Linux._m_read wfd_ (Linux.directory_iterator_at s file_path).1
                 (Linux.directory_iterator_at s file_path).2)
            = Linux._m_read wfd_ st.1 st.2).
    { unfold st. generalize (Linux.directory_iterator_at s file_path).
      clear. induction n as [|n IH]; intros x; simpl; [done|]. apply IH. }
    rewrite Hst in Hend. fold st' in Hend. congruence.
Qed.
End Surfaced.

(** Where names made of ['.'] characters only are kept out.  On Windows
    every live iterator, after construction and any number of advances,
    stores the entry built from a raw entry of the listing whose name is
    not made of dots only.  On Linux the same holds right after
    construction; an advance that leaves the iterator live has settled on
    such a raw entry too, but it stores that entry's name only when [stat]
    fails: when [stat] succeeds it stores the entry built from [wfd_]. *)
Theorem dot_entries_never_surface :
  (forall wfd0 s file_path n,
     let st := Windows.advance n (Windows.directory_iterator_at wfd0 s file_path) in
     Windows.end_ st.2 = false ->
     ~ only_dots (text_ (m_path (Windows.value_ st.2))) /\
     exists e, e ∈ Windows.matching s (Windows.search_pattern s file_path) /\
       ~ only_dots (cFileName e) /\
       Windows.value_ st.2 = entry_of_find_data e) /\
  (forall s file_path,
     let it := (Linux.directory_iterator_at s file_path).2 in
     let dir := Linux.directory_path file_path in
     Linux.end_ it = false ->
     ~ only_dots (text_ (m_path (Linux.value_ it))) /\
     exists l dnt, Linux.directories s dir = Some l /\ dnt ∈ l /\
       ~ only_dots (Linux.d_name dnt) /\
       Linux.value_ it = Linux.prepared_entry s dir dnt) /\
  (forall wfd_ s file_path n,
     let st := Linux.advance wfd_ n (Linux.directory_iterator_at s file_path) in
     let st' := Linux._m_read wfd_ st.1 st.2 in
     Linux.end_ st'.2 = false ->
     exists l dnt,
       Linux.directories s (Linux.directory_path file_path) = Some l /\
       dnt ∈ l /\ ~ only_dots (Linux.d_name dnt) /\
       Linux.value_ st'.2 = Linux.read_entry wfd_ st.1 st.2 dnt /\
       (text_ (m_path (Linux.value_ st'.2)) = Linux.d_name dnt \/
        Linux.value_ st'.2 = entry_of_find_data wfd_)).
Proof.
  split; [|split].
  - apply (win_surfaced _ not_ignored_not_only_dots).
  - apply (lin_surfaced_first _ not_ignored_not_only_dots).
  - apply (lin_surfaced_next _ not_ignored_not_only_dots).
Qed.


(** * Counting advances *)

(** C4: over a directory with [k >= 1] qualifying entries the constructed
    iterator is live, it is still live after every [j < k] advances, and
    it is at end after [k] advances. *)
Theorem advancing_k_times_reaches_end :
  (forall wfd0 s file_path k,
     qualifying cFileName
       (Windows.matching s (Windows.search_pattern s file_path)) = k ->
     1 <= k ->
     let st := Windows.directory_iterator_at wfd0 s file_path in
     Windows.end_ st.2 = false /\
     (forall j, j < k -> Windows.end_ (Windows.advance j st).2 = false) /\
     Windows.end_ (Windows.advance k st).2 = true) /\
  (forall wfd_ s file_path l k,
     Linux.directories s (Linux.directory_path file_path) = Some l ->
     qualifying Linux.d_name l = k ->
     1 <= k ->
     let st := Linux.directory_iterator_at s file_path in
     Linux.end_ st.2 = false /\
     (forall j, j < k -> Linux.end_ (Linux.advance wfd_ j st).2 = false) /\
     Linux.end_ (Linux.advance wfd_ k st).2 = true).
Proof.
  split.
  - intros wfd0 s file_path k Hk Hpos st.
    pose proof (WindowsFacts.win_directory_iterator_at_spec wfd0 s file_path)
      as H.
    simpl in H. rewrite Hk in H. fold st in H.
    destruct k as [|k]; [lia|].
    destruct H as (He & h & Hh & _ & Hq & _).
    assert (Hadv : forall j,
              Windows.end_ (Windows.advance j st).2 = (k <? j)%nat).
    { intros j. destruct st as [s' it]. simpl in *.
      rewrite (WindowsFacts.win_advance_live j s' it h Hh He).
      by rewrite Hq. }
    split; [assumption|]. split.
    + intros j Hj. rewrite Hadv. apply Nat.ltb_ge. lia.
    + rewrite Hadv. apply Nat.ltb_lt. lia.
  - intros wfd_ s file_path l k Hd Hk Hpos st.
    pose proof (LinuxFacts.lin_directory_iterator_at_spec s file_path)
      as [_ H].
    simpl in H. rewrite Hd, Hk in H. fold st in H.
    destruct k as [|k]; [lia|].
    destruct H as (He & _ & h & Hh & _ & Hq & _).
    assert (Hadv : forall j,
              Linux.end_ (Linux.advance wfd_ j st).2 = (k <? j)%nat).
    { intros j. destruct st as [s' it]. simpl in *.
      rewrite (LinuxFacts.lin_advance_live wfd_ j s' it h Hh He).
      by rewrite Hq. }
    split; [assumption|]. split.
    + intros j Hj. rewrite Hadv. apply Nat.ltb_ge. lia.
    + rewrite Hadv. apply Nat.ltb_lt. lia.
Qed.

Lemma advancing_k_times_reaches_end_witness :
  Windows.end_
    (Windows.advance 1
       (Windows.directory_iterator_at Fixtures.win_junk Fixtures.win_system
          "C:\d")).2 = true /\
  Linux.end_
    (Linux.advance Fixtures.win_junk 2
       (Linux.directory_iterator_at Fixtures.linux_system "/d")).2 = true.
Proof.
  split.
  - refine (proj2 (proj2 (proj1 advancing_k_times_reaches_end
                            Fixtures.win_junk Fixtures.win_system "C:\d" 1 _ _))).
    + vm_compute. reflexivity.
    + lia.
  - refine (proj2 (proj2 (proj2 advancing_k_times_reaches_end
                            Fixtures.win_junk Fixtures.linux_system "/d"
                            _ 2 _ _ _))).
    + vm_compute. reflexivity.
    + vm_compute. reflexivity.
    + lia.
Defined.

(** * The end state *)

(** C5: once the end flag is set no sequence of increments, prefix or
    postfix, clears it; and one increment of a live iterator that holds a
    handle leaves it live when a qualifying entry is still pending on the
    handle (the advance succeeds) and sets the end flag exactly when none
    is (the advance is exhausted or fails).  Every live iterator reached
    from a construction holds a handle. *)
Theorem end_state_is_terminal :
  (forall ops s it,
     Windows.end_ it = true ->
     Windows.end_
       (fold_left (fun st i => Windows.step i st) ops (s, it)).2 = true) /\
  (forall i s it h,
     Windows.handle_ it = Some h -> Windows.end_ it = false ->
     Windows.end_ (Windows.step i (s, it)).2 =
     (qualifying cFileName (Windows.pending s h) =? 0)%nat) /\
  (forall wfd0 s file_path n,
     let st := Windows.advance n (Windows.directory_iterator_at wfd0 s file_path) in
     Windows.end_ st.2 = false -> is_Some (Windows.handle_ st.2)) /\
  (forall wfd_ ops s it,
     Linux.end_ it = true ->
     Linux.end_
       (fold_left (fun st i => Linux.step wfd_ i st) ops (s, it)).2 = true) /\
  (forall wfd_ i s it h,
     Linux.handle_ it = Some h -> Linux.end_ it = false ->
     Linux.end_ (Linux.step wfd_ i (s, it)).2 =
     (qualifying Linux.d_name (Linux.pending s h) =? 0)%nat) /\
  (forall wfd_ s file_path n,
     let st := Linux.advance wfd_ n (Linux.directory_iterator_at s file_path) in
     Linux.end_ st.2 = false -> is_Some (Linux.handle_ st.2)).
Proof.
  split; [|split; [|split; [|split; [|split]]]];
    [| | apply WindowsFacts.win_live_has_handle | |
     | apply LinuxFacts.lin_live_has_handle].
  - intros ops. induction ops as [|i ops IH]; intros s it He; simpl; [done|].
    rewrite WindowsFacts.win_step_read. simpl.
    pose proof (WindowsFacts.win_m_read_end s it He) as He'.
    destruct (Windows._m_read s it) as [s' it']. by apply IH.
  - intros i s it h Hh He. rewrite WindowsFacts.win_step_read. simpl.
    pose proof (WindowsFacts.win_m_read_spec s it h Hh) as (_ & _ & _ & H).
    destruct (qualifying cFileName (Windows.pending s h)); simpl.
    + by destruct H.
    + destruct H as [H _]. congruence.
  - intros wfd_ ops. induction ops as [|i ops IH]; intros s it He; simpl; [done|].
    rewrite LinuxFacts.lin_step_read. simpl.
    pose proof (LinuxFacts.lin_m_read_end wfd_ s it He) as He'.
    destruct (Linux._m_read wfd_ s it) as [s' it']. by apply IH.
  - intros wfd_ i s it h Hh He. rewrite LinuxFacts.lin_step_read. simpl.
    pose proof (LinuxFacts.lin_m_read_spec wfd_ s it h Hh)
      as (_ & _ & _ & _ & _ & H).
    destruct (qualifying Linux.d_name (Linux.pending s h)); simpl.
    + by destruct H.
    + destruct H as [H _]. congruence.
Qed.

Lemma end_state_is_terminal_witness :
  Windows.end_
    (fold_left (fun st i => Windows.step i st)
       [pre_increment; post_increment]
       (Windows.advance 1
          (Windows.directory_iterator_at Fixtures.win_junk Fixtures.win_system
             "C:\d"))).2 = true /\
  Linux.end_
    (Linux.step Fixtures.win_junk post_increment
       (Linux.directory_iterator_at Fixtures.linux_system "/d")).2 = false.
Proof.
  split.
  - pose proof (proj1 end_state_is_terminal [pre_increment; post_increment]
                  (Windows.advance 1
                     (Windows.directory_iterator_at Fixtures.win_junk
                        Fixtures.win_system "C:\d")).1
                  (Windows.advance 1
                     (Windows.directory_iterator_at Fixtures.win_junk
                        Fixtures.win_system "C:\d")).2) as H.
    apply H. vm_compute. reflexivity.
  - pose proof (proj1 (proj2 (proj2 (proj2 (proj2 end_state_is_terminal))))
                  Fixtures.win_junk post_increment
                  (Linux.directory_iterator_at Fixtures.linux_system "/d").1
                  (Linux.directory_iterator_at Fixtures.linux_system "/d").2
                  0) as H.
    rewrite <- surjective_pairing in H. rewrite H.
    + vm_compute. reflexivity.
    + vm_compute. reflexivity.
    + vm_compute. reflexivity.
Defined.

(** * Entries whose [stat] fails *)

(** C6, on the code: over [/d], whose first qualifying entry [sub] is a
    directory that [stat] reports with size 4096 and whose second entry
    [b] cannot be stat'ed, the advance to [b] keeps the iterator live and
    stores the name [b], but with the size and the directory flag of
    [sub]; at construction a failing [stat] does give size 0 and no
    directory flag (over [/d2], whose only entry [b] cannot be
    stat'ed). *)
Theorem failed_stat_on_advance_keeps_old_size_and_type :
  (let '(s1, it0) := Linux.directory_iterator_at Fixtures.linux_system "/d" in
   let '(s2, it1) := Linux.pre_incr Fixtures.win_junk s1 it0 in
   Linux.value_ it0 = value_type "sub" true 4096 /\
   Linux.stat s1 (Linux.path_ it0 ++ "/" ++ "b") = None /\
   Linux.end_ it1 = false /\
   Linux.value_ it1 = value_type "b" true 4096) /\
  (let '(s1, it0) := Linux.directory_iterator_at Fixtures.linux_system "/d2" in
   Linux.stat Fixtures.linux_system ("/d2/" ++ "b") = None /\
   Linux.end_ it0 = false /\
   Linux.value_ it0 = value_type "b" false 0).
Proof. vm_compute. repeat split. Qed.

(** * The size of an entry *)

(** C7 as stated fails: [/d/sub] is a directory, not a regular file, and
    the entry constructed for it has size 4096. *)
Lemma size_of_a_directory_entry_is_not_zero :
  ~ (forall s file_path fst,
       let it := (Linux.directory_iterator_at s file_path).2 in
       Linux.end_ it = false ->
       Linux.stat s (Linux.path_ it ++ text_ (m_path (Linux.value_ it)))
       = Some fst ->
       Linux.S_ISREG (Linux.st_mode fst) = false ->
       size (Linux.value_ it) = 0%Z).
Proof.
  intros H.
  specialize (H Fixtures.linux_system "/d"
                {| Linux.st_mode := 16877; Linux.st_size := 4096 |}).
  assert (H0 : size (Linux.value_
                 (Linux.directory_iterator_at Fixtures.linux_system "/d").2)
               = 0%Z)
    by (apply H; vm_compute; reflexivity).
  vm_compute in H0. discriminate.
Qed.

(** C7, amended: the size of an entry is the size the native primitive
    reports, whatever the type of the target.  On Windows a live iterator,
    after construction and any number of advances, stores the entry of a
    raw entry of the listing with that entry's [nFileSizeLow] as size.  On
    Linux a live iterator, right after construction, stores as size the
    [st_size] that [stat] reports for the entry, converted to [unsigned
    long] (so [st_size] itself when it fits), and the directory flag
    [S_ISDIR] gives, also when the target is not a regular file; when
    [stat] fails the size is 0 and the directory flag is clear. *)
Theorem entry_size_is_the_native_size :
  (forall wfd0 s file_path n,
     let st := Windows.advance n (Windows.directory_iterator_at wfd0 s file_path) in
     Windows.end_ st.2 = false ->
     exists e, e ∈ Windows.matching s (Windows.search_pattern s file_path) /\
       Windows.value_ st.2 = entry_of_find_data e /\
       size (Windows.value_ st.2) = nFileSizeLow e) /\
  (forall s file_path,
     let it := (Linux.directory_iterator_at s file_path).2 in
     Linux.end_ it = false ->
     match Linux.stat s (Linux.directory_path file_path
                         ++ text_ (m_path (Linux.value_ it))) with
     | Some fst =>
         size (Linux.value_ it) = Linux.to_unsigned_long (Linux.st_size fst) /\
         (0 <= Linux.st_size fst < 2 ^ 64 ->
          size (Linux.value_ it) = Linux.st_size fst)%Z /\
         directory (Linux.value_ it) = Linux.S_ISDIR (Linux.st_mode fst)
     | None =>
         size (Linux.value_ it) = 0%Z /\ directory (Linux.value_ it) = false
     end).
Proof.
  split.
  - intros wfd0 s file_path n st He.
    destruct (win_surfaced (fun _ => True) (fun _ _ => I)
                wfd0 s file_path n He) as (_ & e & Hin & _ & Hv).
    exists e. fold st in Hv. rewrite Hv. by repeat split.
  - intros s file_path it He.
    destruct (lin_surfaced_first (fun _ => True) (fun _ _ => I)
                s file_path He) as (_ & l & dnt & _ & _ & _ & Hv).
    fold it in Hv. rewrite Hv, LinuxFacts.prepared_entry_name.
    unfold Linux.prepared_entry.
    destruct (Linux.stat s _) as [fst|]; simpl; [|done].
    repeat split. intros Hr. unfold Linux.to_unsigned_long.
    by apply Z.mod_small.
Qed.

Lemma entry_size_is_the_native_size_witness :
  (exists e,
     e ∈ Windows.matching Fixtures.win_system
           (Windows.search_pattern Fixtures.win_system "C:\d") /\
     Windows.value_
       (Windows.advance 0
          (Windows.directory_iterator_at Fixtures.win_junk Fixtures.win_system
             "C:\d")).2 = entry_of_find_data e /\
     size (Windows.value_
       (Windows.advance 0
          (Windows.directory_iterator_at Fixtures.win_junk Fixtures.win_system
             "C:\d")).2) = nFileSizeLow e) /\
  size (Linux.value_ (Linux.directory_iterator_at Fixtures.linux_system "/d").2)
  = 4096%Z.
Proof.
  split.
  - refine (proj1 entry_size_is_the_native_size Fixtures.win_junk
              Fixtures.win_system "C:\d" 0 _).
    vm_compute. reflexivity.
  - assert (He : Linux.end_
              (Linux.directory_iterator_at Fixtures.linux_system "/d").2
              = false) by (vm_compute; reflexivity).
    pose proof (proj2 entry_size_is_the_native_size Fixtures.linux_system
                  "/d" He) as H.
    vm_compute in H. destruct H as (_ & H & _). vm_compute. reflexivity.
Defined.

(** * Post-increment *)

(** C8: for a live iterator, [it++] returns a copy of the iterator as it
    was before the call (so with its end flag and its entry) and leaves
    the system and the iterator as [++it] does. *)
Theorem post_increment_returns_old_state :
  (forall s it,
     Windows.end_ it = false ->
     let r := Windows.post_incr s it in
     r.2 = it /\ Windows.end_ r.2 = Windows.end_ it /\
     Windows.dereference r.2 = Windows.dereference it /\
     r.1 = Windows.pre_incr s it) /\
  (forall wfd_ s it,
     Linux.end_ it = false ->
     let r := Linux.post_incr wfd_ s it in
     r.2 = it /\ Linux.end_ r.2 = Linux.end_ it /\
     Linux.dereference r.2 = Linux.dereference it /\
     r.1 = Linux.pre_incr wfd_ s it).
Proof.
  split.
  - intros s it _ r. unfold r. by rewrite WindowsFacts.win_post_incr_read.
  - intros wfd_ s it _ r. unfold r. by rewrite LinuxFacts.lin_post_incr_read.
Qed.

Lemma post_increment_returns_old_state_witness :
  Windows.dereference
    (Windows.post_incr
       (Windows.directory_iterator_at Fixtures.win_junk Fixtures.win_system
          "C:\d").1
       (Windows.directory_iterator_at Fixtures.win_junk Fixtures.win_system
          "C:\d").2).2
  = Windows.dereference
      (Windows.directory_iterator_at Fixtures.win_junk Fixtures.win_system
         "C:\d").2 /\
  Linux.dereference
    (Linux.post_incr Fixtures.win_junk
       (Linux.directory_iterator_at Fixtures.linux_system "/d").1
       (Linux.directory_iterator_at Fixtures.linux_system "/d").2).2
  = Linux.dereference (Linux.directory_iterator_at Fixtures.linux_system "/d").2.
Proof.
  split.
  - refine (proj1 (proj2 (proj2 (proj1 post_increment_returns_old_state _ _ _)))).
    vm_compute. reflexivity.
  - refine (proj1 (proj2 (proj2 (proj2 post_increment_returns_old_state
                                   Fixtures.win_junk _ _ _)))).
    vm_compute. reflexivity.
Defined.

(** * The empty name *)

(** Where the empty name is kept out.  The filter ignores the empty
    name.  On Windows every live iterator, after construction and any
    number of advances, stores the entry built from a raw entry of the
    listing whose name is not empty.  On Linux the same holds right after
    construction; an advance that leaves the iterator live has settled on
    such a raw entry too, but it stores that entry's name only when [stat]
    fails: when [stat] succeeds it stores the entry built from [wfd_]. *)
Theorem empty_name_is_skipped :
  _m_ignore "" = true /\
  (forall wfd0 s file_path n,
     let st := Windows.advance n (Windows.directory_iterator_at wfd0 s file_path) in
     Windows.end_ st.2 = false ->
     text_ (m_path (Windows.value_ st.2)) <> "" /\
     exists e, e ∈ Windows.matching s (Windows.search_pattern s file_path) /\
       cFileName e <> "" /\ Windows.value_ st.2 = entry_of_find_data e) /\
  (forall s file_path,
     let it := (Linux.directory_iterator_at s file_path).2 in
     let dir := Linux.directory_path file_path in
     Linux.end_ it = false ->
     text_ (m_path (Linux.value_ it)) <> "" /\
     exists l dnt, Linux.directories s dir = Some l /\ dnt ∈ l /\
       Linux.d_name dnt <> "" /\
       Linux.value_ it = Linux.prepared_entry s dir dnt) /\
  (forall wfd_ s file_path n,
     let st := Linux.advance wfd_ n (Linux.directory_iterator_at s file_path) in
     let st' := Linux._m_read wfd_ st.1 st.2 in
     Linux.end_ st'.2 = false ->
     exists l dnt,
       Linux.directories s (Linux.directory_path file_path) = Some l /\
       dnt ∈ l /\ Linux.d_name dnt <> "" /\
       Linux.value_ st'.2 = Linux.read_entry wfd_ st.1 st.2 dnt /\
       (text_ (m_path (Linux.value_ st'.2)) = Linux.d_name dnt \/
        Linux.value_ st'.2 = entry_of_find_data wfd_)).
Proof.
  split; [reflexivity|]. split; [|split].
  - apply (win_surfaced _ not_ignored_not_empty).
  - apply (lin_surfaced_first _ not_ignored_not_empty).
  - apply (lin_surfaced_next _ not_ignored_not_empty).
Qed.


(** * The end sentinel *)

(** C10: incrementing a default-constructed iterator, by any sequence of
    prefix and postfix increments, changes neither the system (no handle
    is read, opened or closed) nor the iterator (end flag, handle, shared
    handle and entry stay as constructed). *)
Theorem incrementing_end_sentinel_changes_nothing :
  (forall wfd0 s ops,
     fold_left (fun st i => Windows.step i st) ops
       (s, Windows.directory_iterator_end wfd0)
     = (s, Windows.directory_iterator_end wfd0)) /\
  (forall wfd0 s, Windows.post_incr s (Windows.directory_iterator_end wfd0)
     = (s, Windows.directory_iterator_end wfd0,
        Windows.directory_iterator_end wfd0)) /\
  (forall wfd_ s ops,
     fold_left (fun st i => Linux.step wfd_ i st) ops
       (s, Linux.directory_iterator_end)
     = (s, Linux.directory_iterator_end)) /\
  (forall wfd_ s, Linux.post_incr wfd_ s Linux.directory_iterator_end
     = (s, Linux.directory_iterator_end, Linux.directory_iterator_end)).
Proof.
  split; [|split; [|split]].
  - intros wfd0 s ops. induction ops as [|i ops IH]; simpl; [done|].
    rewrite WindowsFacts.win_step_read. exact IH.
  - reflexivity.
  - intros wfd_ s ops. induction ops as [|i ops IH]; simpl; [done|].
    rewrite LinuxFacts.lin_step_read. exact IH.
  - reflexivity.
Qed.

(** * Further properties of the filter *)

Lemma qualifying_entries_cons {A} (name_of : A -> string) (e : A) (l : list A) :
  qualifying_entries name_of (e :: l) =
  if _m_ignore (name_of e) then qualifying_entries name_of l
  else e :: qualifying_entries name_of l.
Proof.
  unfold qualifying_entries. simpl. by destruct (_m_ignore (name_of e)).
Qed.

Lemma qualifying_length {A} (name_of : A -> string) (l : list A) :
  qualifying name_of l = length (qualifying_entries name_of l).
Proof. reflexivity. Qed.

(** X1: on a name without NUL characters the filter answers [true] exactly
    for the names made of ['.'] characters only, so a name such as [.git],
    [a.] or [..x] is kept. *)
Theorem ignored_iff_only_dots (s : string) :
  free_of (fun a => Ascii.eqb a Ascii.zero) s ->
  _m_ignore s = true <-> only_dots s.
Proof.
  induction s as [|a s IH]; simpl; [done|]. intros [Ha Hs].
  destruct (Ascii.eqb a ".") eqn:E.
  - apply Ascii.eqb_eq in E as ->. specialize (IH Hs). tauto.
  - rewrite Ha. split; [discriminate|].
    intros [-> _]. by rewrite Ascii.eqb_refl in E.
Qed.

Lemma ignored_iff_only_dots_witness :
  _m_ignore ".git" = true <-> only_dots ".git".
Proof. apply ignored_iff_only_dots. simpl. tauto. Defined.

(** * Further properties of the Windows branch *)
Module WindowsMore.
Import Windows.

(** The loop stops on the first qualifying entry and leaves the later
    ones pending. *)
Lemma win_skip_ignored_entries (rest : list WIN32_FIND_DATA) : forall wfd,
  match qualifying_entries cFileName (wfd :: rest) with
  | [] => (skip_ignored wfd rest).1.1 = false /\ (skip_ignored wfd rest).2 = []
  | e :: q =>
      exists rest', skip_ignored wfd rest = (true, e, rest') /\
                    qualifying_entries cFileName rest' = q
  end.
Proof.
  induction rest as [|e rest IH]; intros wfd;
    rewrite qualifying_entries_cons; simpl;
    destruct (_m_ignore (cFileName wfd)) eqn:E; simpl.
  - done.
  - by exists [].
  - apply IH.
  - by exists (e :: rest).
Qed.

(** One [_m_read] of an iterator that holds a handle, by the qualifying
    entries pending on the handle. *)
Lemma win_read_entries (s : system) (it : directory_iterator) (h : find_handle_t) :
  handle_ it = Some h ->
  let r := _m_read s it in
  match qualifying_entries cFileName (pending s h) with
  | [] => end_ r.2 = true /\ value_ r.2 = value_ it /\ pending r.1 h = []
  | e :: q =>
      end_ r.2 = end_ it /\ value_ r.2 = entry_of_find_data e /\
      qualifying_entries cFileName (pending r.1 h) = q
  end.
Proof.
  intros Hh. unfold _m_read, FindNextFile, pending. rewrite Hh.
  destruct (searches s !! h) as [[|e rest]|] eqn:El;
    cbn -[qualifying_entries]; [by rewrite El | | by rewrite El].
  unfold skip, pending; cbn -[qualifying_entries].
  rewrite lookup_insert_eq; cbn -[qualifying_entries].
  pose proof (win_skip_ignored_entries rest e) as Hs.
  destruct (qualifying_entries cFileName (e :: rest)) as [|e' q].
  - destruct (skip_ignored e rest) as [[ok wfd'] rest']. simpl in Hs.
    destruct Hs as [-> ->]. cbn -[qualifying_entries].
    by rewrite lookup_alter_eq, lookup_insert_eq.
  - destruct Hs as (rest' & -> & Hq). cbn -[qualifying_entries].
    by rewrite lookup_alter_eq, lookup_insert_eq.
Qed.

(** [_m_read] leaves the file system as it is, opens and closes no handle
    and touches no entries but those pending on the iterator's handle. *)
Lemma win_read_frame (s : system) (it : directory_iterator) :
  let r := _m_read s it in
  attributes r.1 = attributes s /\ matching r.1 = matching s /\
  dom (searches r.1) = dom (searches s) /\
  forall h', handle_ it <> Some h' -> searches r.1 !! h' = searches s !! h'.
Proof.
  unfold _m_read, FindNextFile.
  destruct (handle_ it) as [h|]; [|done].
  destruct (searches s !! h) as [[|e rest]|] eqn:El; [done| |done].
  unfold skip. simpl.
  destruct (skip_ignored e _) as [[[|] wfd'] rest']; simpl;
    (repeat split;
     [ rewrite dom_alter_L; apply dom_insert_lookup_L; by rewrite El
     | intros h' Hne; rewrite lookup_alter_ne, lookup_insert_ne by congruence;
       reflexivity ]).
Qed.

(** At an iterator that is at end and has nothing pending on its handle
    [_m_read] changes nothing. *)
Lemma win_read_at_end (s : system) (it : directory_iterator) :
  end_ it = true ->
  (forall h, handle_ it = Some h -> pending s h = []) ->
  _m_read s it = (s, it).
Proof.
  intros He Hp. unfold _m_read, FindNextFile.
  destruct (handle_ it) as [h|]; [|done].
  specialize (Hp h eq_refl). unfold pending in Hp.
  assert (Hit : set_end_ true it = it) by (destruct it; simpl in *; by subst).
  destruct (searches s !! h) as [[|e rest]|]; simpl in *;
    [by rewrite Hit | discriminate | by rewrite Hit].
Qed.

(** Every state reached from a construction that is at end has nothing
    pending on its handle. *)
Lemma win_end_nothing_pending (wfd0 : WIN32_FIND_DATA) (s : system)
    (file_path : string) (n : nat) :
  let st := advance n (directory_iterator_at wfd0 s file_path) in
  end_ st.2 = true -> forall h, handle_ st.2 = Some h -> pending st.1 h = [].
Proof.
  assert (Hstep : forall n st,
            (end_ st.2 = true ->
             forall h, handle_ st.2 = Some h -> pending st.1 h = []) ->
            end_ (advance n st).2 = true ->
            forall h, handle_ (advance n st).2 = Some h ->
                      pending (advance n st).1 h = []).
  { clear. induction n as [|n IH]; intros [s it] H; simpl; [done|].
    apply IH; simpl. intros He h Hh.
    destruct (handle_ it) as [h0|] eqn:Hh0.
    - pose proof (WindowsFacts.win_m_read_spec s it h0 Hh0) as (H1 & _).
      assert (h = h0) as -> by congruence.
      pose proof (win_read_entries s it h0 Hh0) as H2. simpl in H2.
      destruct (qualifying_entries cFileName (pending s h0)) eqn:Eq.
      + by destruct H2 as (_ & _ & H2).
      + destruct H2 as (H2 & _). rewrite He in H2.
        pose proof (H (eq_sym H2) h0 Hh0) as Hp. simpl in Hp.
        rewrite Hp in Eq. discriminate.
    - unfold _m_read in Hh. rewrite Hh0 in Hh. simpl in Hh. congruence. }
  apply Hstep.
  pose proof (WindowsFacts.win_directory_iterator_at_spec wfd0 s file_path)
    as H.
  simpl in H.
  destruct (qualifying cFileName (matching s (search_pattern s file_path))).
  - destruct H as (_ & H & _). congruence.
  - destruct H as (H & _). congruence.
Qed.

Lemma win_advance_at_end (n : nat) (s : system) (it : directory_iterator) :
  end_ it = true ->
  (forall h, handle_ it = Some h -> pending s h = []) ->
  advance n (s, it) = (s, it).
Proof.
  intros He Hp. induction n as [|n IH]; simpl; [done|].
  by rewrite win_read_at_end.
Qed.

(** The end flag and the entry of a live iterator after [j] advances, by
    the qualifying entries pending on its handle. *)
Lemma win_advance_values (j : nat) : forall s it h,
  handle_ it = Some h -> end_ it = false ->
  let q := qualifying_entries cFileName (pending s h) in
  let st := advance j (s, it) in
  end_ st.2 = (length q <? j)%nat /\
  value_ st.2 =
    nth (min j (length q)) (value_ it :: map entry_of_find_data q) (value_ it).
Proof.
  induction j as [|j IH]; intros s it h Hh He q st.
  - subst st. simpl. split; [|done]. rewrite He. symmetry.
    apply Nat.ltb_ge. lia.
  - subst st. simpl.
    pose proof (WindowsFacts.win_m_read_spec s it h Hh) as (H1 & _).
    pose proof (win_read_entries s it h Hh) as H2. simpl in H2. fold q in H2.
    destruct (_m_read s it) as [s1 it1] eqn:Er. simpl in *.
    destruct q as [|e q'].
    + destruct H2 as (H2 & H3 & H4).
      rewrite win_advance_at_end; [done | done |].
      intros h' Hh'. assert (h' = h) as -> by congruence. done.
    + destruct H2 as (H2 & H3 & H4).
      destruct (IH s1 it1 h H1 (eq_trans H2 He)) as [IH1 IH2].
      rewrite H4 in IH1, IH2. rewrite IH1, IH2, H3. split; [done|].
      simpl. destruct (min j (length q')) as [|m] eqn:Em; [done|].
      apply nth_indep. rewrite length_map.
      pose proof (Nat.le_min_r j (length q')). lia.
Qed.

(** The constructor, by the qualifying entries the search pattern
    matches. *)
Lemma win_at_entries (wfd0 : WIN32_FIND_DATA) (s : system) (file_path : string) :
  let r := directory_iterator_at wfd0 s file_path in
  match qualifying_entries cFileName
          (matching s (search_pattern s file_path)) with
  | [] => end_ r.2 = true /\ handle_ r.2 = None /\
          value_ r.2 = directory_entry_default
  | e :: q =>
      end_ r.2 = false /\ value_ r.2 = entry_of_find_data e /\
      exists h, handle_ r.2 = Some h /\
                qualifying_entries cFileName (pending r.1 h) = q
  end.
Proof.
  unfold directory_iterator_at, _m_prepare, FindFirstFile.
  destruct (matching s (search_pattern s file_path)) as [|e rest];
    cbn -[qualifying_entries]; [done|].
  unfold skip, pending; cbn -[qualifying_entries].
  rewrite lookup_insert_eq; cbn -[qualifying_entries].
  pose proof (win_skip_ignored_entries rest e) as Hs.
  destruct (qualifying_entries cFileName (e :: rest)) as [|e' q].
  - destruct (skip_ignored e rest) as [[ok wfd'] rest']. simpl in Hs.
    by destruct Hs as [-> ->].
  - destruct Hs as (rest' & -> & Hq). cbn -[qualifying_entries].
    repeat split. eexists. split; [done|].
    unfold pending; cbn -[qualifying_entries].
    by rewrite lookup_alter_eq, lookup_insert_eq.
Qed.

(** Two iterators that hold the same handle read the same entry. *)
Lemma win_read_same_handle (s : system) (a b : directory_iterator)
    (h : find_handle_t) :
  handle_ a = Some h -> handle_ b = Some h ->
  (_m_read s a).1 = (_m_read s b).1 /\
  (end_ a = end_ b -> end_ (_m_read s a).2 = end_ (_m_read s b).2) /\
  (end_ (_m_read s a).2 = false ->
   value_ (_m_read s a).2 = value_ (_m_read s b).2).
Proof.
  intros Ha Hb. unfold _m_read. rewrite Ha, Hb.
  destruct (FindNextFile s h) as [[wfd s1]|]; [|done].
  by destruct (skip s1 h wfd) as [[[|] wfd'] s2].
Qed.

(** Over every state reached from a construction: the shared handle is
    the handle, it was not open before the construction, and closing it
    gives back the handle table of before. *)
Lemma win_handle_accounting (wfd0 : WIN32_FIND_DATA) (s : system)
    (file_path : string) (n : nat) :
  let st := advance n (directory_iterator_at wfd0 s file_path) in
  attributes st.1 = attributes s /\ matching st.1 = matching s /\
  find_ptr_ st.2 = handle_ st.2 /\
  match handle_ st.2 with
  | Some h => searches s !! h = None /\ is_Some (searches st.1 !! h) /\
              delete h (searches st.1) = searches s
  | None => searches st.1 = searches s
  end.
Proof.
  assert (Hstep : forall n st,
    (attributes st.1 = attributes s /\ matching st.1 = matching s /\
     find_ptr_ st.2 = handle_ st.2 /\
     match handle_ st.2 with
     | Some h => searches s !! h = None /\ is_Some (searches st.1 !! h) /\
                 delete h (searches st.1) = searches s
     | None => searches st.1 = searches s
     end) ->
    (attributes (advance n st).1 = attributes s /\
     matching (advance n st).1 = matching s /\
     find_ptr_ (advance n st).2 = handle_ (advance n st).2 /\
     match handle_ (advance n st).2 with
     | Some h => searches s !! h = None /\
                 is_Some (searches (advance n st).1 !! h) /\
                 delete h (searches (advance n st).1) = searches s
     | None => searches (advance n st).1 = searches s
     end)).
  { clear. induction n as [|n IH]; intros [s1 it] H; simpl; [done|].
    apply IH; simpl. simpl in H. destruct H as (Ha & Hm & Hf & Hs).
    pose proof (win_read_frame s1 it) as (Fa & Fm & Fd & Fl). simpl in *.
    destruct (handle_ it) as [h|] eqn:Hh.
    - pose proof (WindowsFacts.win_m_read_spec s1 it h Hh) as (H1 & H2 & _).
      rewrite H1, H2, Fa, Fm. destruct Hs as (Hn & Hsome & Hdel).
      repeat split; try done.
      + apply elem_of_dom. rewrite Fd. by apply elem_of_dom.
      + rewrite <- Hdel. apply map_eq. intros k.
        destruct (decide (k = h)) as [->|Hne].
        * by rewrite !lookup_delete_eq.
        * rewrite !lookup_delete_ne by done. apply Fl. congruence.
    - unfold _m_read. rewrite Hh. simpl. by rewrite Hh. }
  apply Hstep. clear Hstep.
  unfold directory_iterator_at, _m_prepare, FindFirstFile.
  destruct (matching s (search_pattern s file_path)) as [|e rest]; simpl;
    [done|].
  set (h := fresh (dom (searches s))).
  assert (Hfresh : searches s !! h = None)
    by (apply not_elem_of_dom, is_fresh).
  unfold skip, pending; simpl.
  destruct (skip_ignored e _) as [[[|] wfd'] rest']; simpl.
  - repeat split; try done.
    + by rewrite lookup_alter_eq, lookup_insert_eq.
    + by rewrite alter_insert_eq, delete_insert_id.
  - repeat split. by rewrite alter_insert_eq, delete_insert_id.
Qed.

End WindowsMore.

(** * Further properties of the Linux branch *)
Module LinuxMore.
Import Linux.

Lemma lin_skip_ignored_entries (rest : list dirent) : forall dnt,
  match qualifying_entries d_name (dnt :: rest) with
  | [] => (skip_ignored dnt rest).1.1 = false /\ (skip_ignored dnt rest).2 = []
  | e :: q =>
      exists rest', skip_ignored dnt rest = (true, e, rest') /\
                    qualifying_entries d_name rest' = q
  end.
Proof.
  induction rest as [|e rest IH]; intros dnt;
    rewrite qualifying_entries_cons; simpl;
    destruct (_m_ignore (d_name dnt)) eqn:E; simpl.
  - done.
  - by exists [].
  - apply IH.
  - by exists (e :: rest).
Qed.

(** One [_m_read] of an iterator that holds a handle, by the qualifying
    entries pending on the handle. *)
Lemma lin_read_entries (wfd_ : WIN32_FIND_DATA) (s : system)
    (it : directory_iterator) (h : find_handle_t) :
  handle_ it = Some h ->
  let r := _m_read wfd_ s it in
  match qualifying_entries d_name (pending s h) with
  | [] => end_ r.2 = true /\ value_ r.2 = value_ it /\ pending r.1 h = []
  | e :: q =>
      end_ r.2 = end_ it /\ value_ r.2 = read_entry wfd_ s it e /\
      qualifying_entries d_name (pending r.1 h) = q
  end.
Proof.
  intros Hh. unfold _m_read, readdir, pending. rewrite Hh.
  destruct (streams s !! h) as [[|e rest]|] eqn:El;
    cbn -[qualifying_entries]; [by rewrite El | | by rewrite El].
  unfold skip, pending; cbn -[qualifying_entries].
  rewrite lookup_insert_eq; cbn -[qualifying_entries].
  pose proof (lin_skip_ignored_entries rest e) as Hs.
  destruct (qualifying_entries d_name (e :: rest)) as [|e' q].
  - destruct (skip_ignored e rest) as [[ok dnt'] rest']. simpl in Hs.
    destruct Hs as [-> ->]. cbn -[qualifying_entries].
    by rewrite lookup_alter_eq, lookup_insert_eq.
  - destruct Hs as (rest' & -> & Hq). cbn -[qualifying_entries].
    unfold read_entry, stat. cbn -[qualifying_entries].
    destruct (inodes s _); cbn -[qualifying_entries];
      by rewrite lookup_alter_eq, lookup_insert_eq.
Qed.

(** [_m_read] leaves the file system as it is, opens and closes no handle
    and touches no entries but those pending on the iterator's handle. *)
Lemma lin_read_frame (wfd_ : WIN32_FIND_DATA) (s : system)
    (it : directory_iterator) :
  let r := _m_read wfd_ s it in
  directories r.1 = directories s /\ inodes r.1 = inodes s /\
  dom (streams r.1) = dom (streams s) /\
  forall h', handle_ it <> Some h' -> streams r.1 !! h' = streams s !! h'.
Proof.
  unfold _m_read, readdir.
  destruct (handle_ it) as [h|]; [|done].
  destruct (streams s !! h) as [[|e rest]|] eqn:El; [done| |done].
  unfold skip, stat. simpl.
  destruct (skip_ignored e _) as [[[|] dnt'] rest']; simpl;
    [destruct (inodes s _)|]; simpl;
    (repeat split;
     [ rewrite dom_alter_L; apply dom_insert_lookup_L; by rewrite El
     | intros h' Hne; rewrite lookup_alter_ne, lookup_insert_ne by congruence;
       reflexivity ]).
Qed.

Lemma lin_read_at_end (wfd_ : WIN32_FIND_DATA) (s : system)
    (it : directory_iterator) :
  end_ it = true ->
  (forall h, handle_ it = Some h -> pending s h = []) ->
  _m_read wfd_ s it = (s, it).
Proof.
  intros He Hp. unfold _m_read, readdir.
  destruct (handle_ it) as [h|]; [|done].
  specialize (Hp h eq_refl). unfold pending in Hp.
  assert (Hit : set_end_ true it = it) by (destruct it; simpl in *; by subst).
  destruct (streams s !! h) as [[|e rest]|]; simpl in *;
    [by rewrite Hit | discriminate | by rewrite Hit].
Qed.

Lemma lin_advance_at_end (wfd_ : WIN32_FIND_DATA) (n : nat) (s : system)
    (it : directory_iterator) :
  end_ it = true ->
  (forall h, handle_ it = Some h -> pending s h = []) ->
  advance wfd_ n (s, it) = (s, it).
Proof.
  intros He Hp. induction n as [|n IH]; simpl; [done|].
  by rewrite lin_read_at_end.
Qed.

(** The constructor, by what [opendir] finds. *)
Lemma lin_at_entries (s : system) (file_path : string) :
  let r := directory_iterator_at s file_path in
  let dir := directory_path file_path in
  match directories s dir with
  | None => end_ r.2 = true /\ handle_ r.2 = None
  | Some l =>
      match qualifying_entries d_name l with
      | [] => end_ r.2 = true /\ handle_ r.2 = None /\
              value_ r.2 = directory_entry_default
      | e :: q =>
          end_ r.2 = false /\ path_ r.2 = dir /\
          value_ r.2 = prepared_entry s dir e /\
          exists h, handle_ r.2 = Some h /\
                    qualifying_entries d_name (pending r.1 h) = q
      end
  end.
Proof.
  unfold directory_iterator_at, _m_prepare, opendir.
  set (dir := directory_path file_path).
  destruct (directories s dir) as [l|]; cbn -[qualifying_entries]; [|done].
  unfold readdir; cbn -[qualifying_entries]. rewrite lookup_insert_eq.
  destruct l as [|e rest]; cbn -[qualifying_entries]; [done|].
  unfold skip, pending; cbn -[qualifying_entries].
  rewrite lookup_insert_eq; cbn -[qualifying_entries].
  pose proof (lin_skip_ignored_entries rest e) as Hs.
  destruct (qualifying_entries d_name (e :: rest)) as [|e' q].
  - destruct (skip_ignored e rest) as [[ok dnt'] rest']. simpl in Hs.
    by destruct Hs as [-> ->].
  - destruct Hs as (rest' & -> & Hq). cbn -[qualifying_entries].
    unfold prepared_entry, stat. cbn -[qualifying_entries].
    destruct (inodes s _); cbn -[qualifying_entries];
      (repeat split; eexists; split; [done|];
       unfold pending; cbn -[qualifying_entries];
       by rewrite lookup_alter_eq, lookup_insert_eq).
Qed.

(** Every state reached from a construction that is at end has nothing
    pending on its handle. *)
Lemma lin_end_nothing_pending (wfd_ : WIN32_FIND_DATA) (s : system)
    (file_path : string) (n : nat) :
  let st := advance wfd_ n (directory_iterator_at s file_path) in
  end_ st.2 = true -> forall h, handle_ st.2 = Some h -> pending st.1 h = [].
Proof.
  assert (Hstep : forall n st,
            (end_ st.2 = true ->
             forall h, handle_ st.2 = Some h -> pending st.1 h = []) ->
            end_ (advance wfd_ n st).2 = true ->
            forall h, handle_ (advance wfd_ n st).2 = Some h ->
                      pending (advance wfd_ n st).1 h = []).
  { clear. induction n as [|n IH]; intros [s it] H; simpl; [done|].
    apply IH; simpl. intros He h Hh.
    destruct (handle_ it) as [h0|] eqn:Hh0.
    - pose proof (LinuxFacts.lin_m_read_spec wfd_ s it h0 Hh0) as (H1 & _).
      assert (h = h0) as -> by congruence.
      pose proof (lin_read_entries wfd_ s it h0 Hh0) as H2. simpl in H2.
      destruct (qualifying_entries d_name (pending s h0)) eqn:Eq.
      + by destruct H2 as (_ & _ & H2).
      + destruct H2 as (H2 & _). rewrite He in H2.
        pose proof (H (eq_sym H2) h0 Hh0) as Hp. simpl in Hp.
        rewrite Hp in Eq. discriminate.
    - unfold _m_read in Hh. rewrite Hh0 in Hh. simpl in Hh. congruence. }
  apply Hstep.
  pose proof (lin_at_entries s file_path) as H. simpl in H.
  destruct (directories s (directory_path file_path)) as [l|].
  - destruct (qualifying_entries d_name l).
    + destruct H as (_ & H & _). congruence.
    + destruct H as (H & _). congruence.
  - destruct H as (_ & H). congruence.
Qed.

(** The raw entry each advance settles on, by the qualifying entries
    pending on the handle of a live iterator. *)
Lemma lin_advance_entries (wfd_ : WIN32_FIND_DATA) (j : nat) : forall s it h,
  handle_ it = Some h -> end_ it = false ->
  let st := advance wfd_ j (s, it) in
  let st' := _m_read wfd_ st.1 st.2 in
  match qualifying_entries d_name (pending s h) !! j with
  | Some e => end_ st'.2 = false /\ value_ st'.2 = read_entry wfd_ st.1 st.2 e
  | None => end_ st'.2 = true
  end.
Proof.
  induction j as [|j IH]; intros s it h Hh He.
  - cbn -[qualifying_entries].
    pose proof (lin_read_entries wfd_ s it h Hh) as H. simpl in H.
    destruct (qualifying_entries d_name (pending s h)); simpl.
    + by destruct H.
    + destruct H as (H1 & H2 & _). split; congruence.
  - cbn -[qualifying_entries lookup].
    pose proof (LinuxFacts.lin_m_read_spec wfd_ s it h Hh) as (H1 & _).
    pose proof (lin_read_entries wfd_ s it h Hh) as H2. simpl in H2.
    destruct (_m_read wfd_ s it) as [s1 it1] eqn:Er. simpl in *.
    destruct (qualifying_entries d_name (pending s h)) as [|e q]; simpl.
    + destruct H2 as (H2 & _).
      apply LinuxFacts.lin_m_read_end.
      by apply (LinuxFacts.lin_advance_end wfd_ j (s1, it1)).
    + destruct H2 as (H2 & _ & H4).
      specialize (IH s1 it1 h H1 (eq_trans H2 He)). simpl in IH.
      by rewrite H4 in IH.
Qed.

(** Two iterators over the same directory that hold the same handle
    settle on the same raw entry. *)
Lemma lin_read_same_handle (wfd_ : WIN32_FIND_DATA) (s : system)
    (a b : directory_iterator) (h : find_handle_t) :
  handle_ a = Some h -> handle_ b = Some h -> path_ a = path_ b ->
  (_m_read wfd_ s a).1 = (_m_read wfd_ s b).1 /\
  (end_ a = end_ b ->
   end_ (_m_read wfd_ s a).2 = end_ (_m_read wfd_ s b).2) /\
  (end_ (_m_read wfd_ s a).2 = false ->
   m_path (value_ (_m_read wfd_ s a).2) = m_path (value_ (_m_read wfd_ s b).2)).
Proof.
  intros Ha Hb Hp. unfold _m_read. rewrite Ha, Hb, Hp.
  destruct (readdir s h) as [[dnt s1]|]; [|done].
  destruct (skip s1 h dnt) as [[[|] dnt'] s2]; [|done].
  by destruct (stat s2 _).
Qed.

Lemma lin_handle_accounting (wfd_ : WIN32_FIND_DATA) (s : system)
    (file_path : string) (n : nat) :
  let st := advance wfd_ n (directory_iterator_at s file_path) in
  directories st.1 = directories s /\ inodes st.1 = inodes s /\
  find_ptr_ st.2 = handle_ st.2 /\
  match handle_ st.2 with
  | Some h => streams s !! h = None /\ is_Some (streams st.1 !! h) /\
              delete h (streams st.1) = streams s
  | None => streams st.1 = left_open s file_path
  end.
Proof.
  assert (Hstep : forall n st,
    (directories st.1 = directories s /\ inodes st.1 = inodes s /\
     find_ptr_ st.2 = handle_ st.2 /\
     match handle_ st.2 with
     | Some h => streams s !! h = None /\ is_Some (streams st.1 !! h) /\
                 delete h (streams st.1) = streams s
     | None => streams st.1 = left_open s file_path
     end) ->
    (directories (advance wfd_ n st).1 = directories s /\
     inodes (advance wfd_ n st).1 = inodes s /\
     find_ptr_ (advance wfd_ n st).2 = handle_ (advance wfd_ n st).2 /\
     match handle_ (advance wfd_ n st).2 with
     | Some h => streams s !! h = None /\
                 is_Some (streams (advance wfd_ n st).1 !! h) /\
                 delete h (streams (advance wfd_ n st).1) = streams s
     | None => streams (advance wfd_ n st).1 = left_open s file_path
     end)).
  { generalize (left_open s file_path). clear n. intros B.
    induction n as [|n IH]; intros [s1 it] H; simpl; [done|].
    apply IH; simpl. simpl in H. destruct H as (Ha & Hm & Hf & Hs).
    pose proof (lin_read_frame wfd_ s1 it) as (Fa & Fm & Fd & Fl). simpl in *.
    destruct (handle_ it) as [h|] eqn:Hh.
    - pose proof (LinuxFacts.lin_m_read_spec wfd_ s1 it h Hh)
        as (H1 & H2 & _).
      rewrite H1, H2, Fa, Fm. destruct Hs as (Hn & Hsome & Hdel).
      repeat split; try done.
      + apply elem_of_dom. rewrite Fd. by apply elem_of_dom.
      + rewrite <- Hdel. apply map_eq. intros k.
        destruct (decide (k = h)) as [->|Hne].
        * by rewrite !lookup_delete_eq.
        * rewrite !lookup_delete_ne by done. apply Fl. congruence.
    - unfold _m_read. rewrite Hh. simpl. by rewrite Hh. }
  apply Hstep. clear Hstep.
  unfold left_open, directory_iterator_at, _m_prepare, opendir.
  destruct (directories s (directory_path file_path)) as [l|]; simpl;
    [|done].
  set (h := fresh (dom (streams s))).
  assert (Hfresh : streams s !! h = None)
    by (apply not_elem_of_dom, is_fresh).
  unfold readdir; simpl. rewrite lookup_insert_eq.
  destruct l as [|e rest]; simpl; [done|].
  unfold skip, pending, stat; simpl.
  destruct (skip_ignored e _) as [[[|] dnt'] rest']; simpl.
  - assert (Htable :
      is_Some (alter (fun _ => rest') h
                 (<[h:=rest]> (<[h:=e :: rest]> (streams s))) !! h) /\
      delete h (alter (fun _ => rest') h
                  (<[h:=rest]> (<[h:=e :: rest]> (streams s)))) = streams s).
    { split; [by rewrite lookup_alter_eq, !lookup_insert_eq|].
      by rewrite !insert_insert_eq, alter_insert_eq, delete_insert_id. }
    destruct Htable as [Ht1 Ht2].
    by repeat split.
  - repeat split.
    by rewrite !insert_insert_eq, alter_insert_eq, delete_insert_id.
Qed.

End LinuxMore.

(** * The sequence an iterator produces *)

(** X2: on Windows the iterator produces exactly the qualifying entries
    the search pattern matches, in their native order, none twice and none
    left out: after [j] advances it is live on the [j]-th of them, and from
    the advance past the last one on it is at end and still stores the
    last one (the default entry when there is none). *)
Theorem windows_enumerates_qualifying_entries_in_order :
  forall wfd0 s file_path j,
    let q := qualifying_entries cFileName
               (Windows.matching s (Windows.search_pattern s file_path)) in
    let st := Windows.advance j (Windows.directory_iterator_at wfd0 s file_path) in
    Windows.end_ st.2 = (length q <=? j)%nat /\
    Windows.value_ st.2 =
      nth (min j (length q - 1)) (map entry_of_find_data q)
        directory_entry_default.
Proof.
  intros wfd0 s file_path j q st.
  pose proof (WindowsMore.win_at_entries wfd0 s file_path) as H.
  simpl in H. fold q in H. subst st.
  destruct (Windows.directory_iterator_at wfd0 s file_path) as [s0 it0].
  simpl in H. destruct q as [|e q'].
  - destruct H as (He & Hh & Hv).
    rewrite WindowsMore.win_advance_at_end; [|done|congruence].
    simpl. split; [done|]. by destruct (min j 0).
  - destruct H as (He & Hv & h & Hh & Hq).
    destruct (WindowsMore.win_advance_values j s0 it0 h Hh He) as [H1 H2].
    rewrite Hq in H1, H2. rewrite H1, H2, Hv. split; [done|].
    replace (length (e :: q') - 1) with (length q') by (simpl; lia).
    apply nth_indep. simpl. rewrite length_map.
    pose proof (Nat.le_min_r j (length q')). lia.
Qed.

(** X3: on Linux the scan settles on exactly the qualifying entries of
    the directory, in their native order: the constructor on the first
    one, storing the entry [_m_prepare] builds for it, and the advance
    after [j] earlier ones on the next, storing the entry [_m_read] builds
    for it; when there is no further one the iterator is at end. *)
Theorem linux_settles_on_qualifying_entries_in_order :
  forall wfd_ s file_path l,
    Linux.directories s (Linux.directory_path file_path) = Some l ->
    let q := qualifying_entries Linux.d_name l in
    let c := Linux.directory_iterator_at s file_path in
    match q !! 0 with
    | Some e =>
        Linux.end_ c.2 = false /\
        Linux.value_ c.2 =
          Linux.prepared_entry s (Linux.directory_path file_path) e
    | None => Linux.end_ c.2 = true
    end /\
    forall j,
      let st := Linux.advance wfd_ j c in
      let st' := Linux._m_read wfd_ st.1 st.2 in
      match q !! S j with
      | Some e =>
          Linux.end_ st'.2 = false /\
          Linux.value_ st'.2 = Linux.read_entry wfd_ st.1 st.2 e
      | None => Linux.end_ st'.2 = true
      end.
Proof.
  intros wfd_ s file_path l Hd q c.
  pose proof (LinuxMore.lin_at_entries s file_path) as H.
  simpl in H. rewrite Hd in H. fold q c in H.
  destruct c as [s0 it0]. simpl in H. destruct q as [|e q']; simpl.
  - destruct H as (He & _). split; [done|]. intros j.
    apply LinuxFacts.lin_m_read_end.
    by apply (LinuxFacts.lin_advance_end wfd_ j (s0, it0)).
  - destruct H as (He & _ & Hv & h & Hh & Hq). split; [done|]. intros j.
    pose proof (LinuxMore.lin_advance_entries wfd_ j s0 it0 h Hh He) as H.
    simpl in H. by rewrite Hq in H.
Qed.

Lemma linux_settles_on_qualifying_entries_in_order_witness :
  Linux.end_ (Linux.directory_iterator_at Fixtures.linux_system "/d").2 = false /\
  Linux.value_ (Linux.directory_iterator_at Fixtures.linux_system "/d").2
  = Linux.prepared_entry Fixtures.linux_system (Linux.directory_path "/d")
      {| Linux.d_name := "sub" |}.
Proof.
  refine (proj1 (linux_settles_on_qualifying_entries_in_order
                   Fixtures.win_junk Fixtures.linux_system "/d"
                   [ {| Linux.d_name := "." |}; {| Linux.d_name := ".." |};
                     {| Linux.d_name := "sub" |}; {| Linux.d_name := "b" |} ]
                   _)).
  vm_compute. reflexivity.
Defined.

(** * Copies of an iterator *)

(** X4: the copy [it++] returns shares the cursor of [it].  Advancing the
    copy instead of [it] leaves the system as advancing [it] does and, when
    it leaves the copy live, stores the entry (on Linux: the path) that
    advancing [it] stores: the copy does not go back to the entry after
    the one it shows. *)
Theorem copies_share_the_cursor :
  (forall s it h,
     Windows.handle_ it = Some h ->
     let r := Windows.post_incr s it in
     let ra := Windows._m_read r.1.1 r.2 in
     let rb := Windows._m_read r.1.1 r.1.2 in
     ra.1 = rb.1 /\
     (Windows.end_ r.1.2 = Windows.end_ r.2 ->
      Windows.end_ ra.2 = Windows.end_ rb.2) /\
     (Windows.end_ ra.2 = false ->
      Windows.value_ ra.2 = Windows.value_ rb.2)) /\
  (forall wfd_ s it h,
     Linux.handle_ it = Some h ->
     let r := Linux.post_incr wfd_ s it in
     let ra := Linux._m_read wfd_ r.1.1 r.2 in
     let rb := Linux._m_read wfd_ r.1.1 r.1.2 in
     ra.1 = rb.1 /\
     (Linux.end_ r.1.2 = Linux.end_ r.2 ->
      Linux.end_ ra.2 = Linux.end_ rb.2) /\
     (Linux.end_ ra.2 = false ->
      m_path (Linux.value_ ra.2) = m_path (Linux.value_ rb.2))).
Proof.
  split.
  - intros s it h Hh r ra rb. subst ra rb r.
    rewrite WindowsFacts.win_post_incr_read. simpl.
    pose proof (WindowsFacts.win_m_read_spec s it h Hh) as (H1 & _).
    destruct (WindowsMore.win_read_same_handle
                (Windows._m_read s it).1 it (Windows._m_read s it).2 h Hh H1)
      as (Ha & Hb & Hc).
    repeat split; [done | intros He; by apply Hb | done].
  - intros wfd_ s it h Hh r ra rb. subst ra rb r.
    rewrite LinuxFacts.lin_post_incr_read. simpl.
    pose proof (LinuxFacts.lin_m_read_spec wfd_ s it h Hh)
      as (H1 & _ & H2 & _).
    destruct (LinuxMore.lin_read_same_handle wfd_
                (Linux._m_read wfd_ s it).1 it (Linux._m_read wfd_ s it).2 h
                Hh H1 (eq_sym H2))
      as (Ha & Hb & Hc).
    repeat split; [done | intros He; by apply Hb | done].
Qed.

Lemma copies_share_the_cursor_witness :
  (Windows._m_read
     (Windows.post_incr
        (Windows.directory_iterator_at Fixtures.win_junk Fixtures.win_system
           "C:\d").1
        (Windows.directory_iterator_at Fixtures.win_junk Fixtures.win_system
           "C:\d").2).1.1
     (Windows.post_incr
        (Windows.directory_iterator_at Fixtures.win_junk Fixtures.win_system
           "C:\d").1
        (Windows.directory_iterator_at Fixtures.win_junk Fixtures.win_system
           "C:\d").2).2).1
  = (Windows._m_read
     (Windows.post_incr
        (Windows.directory_iterator_at Fixtures.win_junk Fixtures.win_system
           "C:\d").1
        (Windows.directory_iterator_at Fixtures.win_junk Fixtures.win_system
           "C:\d").2).1.1
     (Windows.post_incr
        (Windows.directory_iterator_at Fixtures.win_junk Fixtures.win_system
           "C:\d").1
        (Windows.directory_iterator_at Fixtures.win_junk Fixtures.win_system
           "C:\d").2).1.2).1.
Proof.
  refine (proj1 (proj1 copies_share_the_cursor _ _ 0 _)).
  vm_compute. reflexivity.
Defined.

(** * Handles *)

(** X5: on Windows no search handle is lost.  Whatever the directory and
    however far the iterator was advanced, destroying it leaves the
    system exactly as it was before the construction; an iterator without
    a handle has left the system unchanged already, and an iterator with a
    handle holds one that was not open before and is open now. *)
Theorem windows_release_restores_the_system :
  forall wfd0 s file_path n,
    let st := Windows.advance n (Windows.directory_iterator_at wfd0 s file_path) in
    Windows.release st.1 st.2 = s /\
    (Windows.handle_ st.2 = None -> st.1 = s) /\
    (forall h, Windows.handle_ st.2 = Some h ->
       Windows.searches s !! h = None /\
       is_Some (Windows.searches st.1 !! h)).
Proof.
  intros wfd0 s file_path n st.
  pose proof (WindowsMore.win_handle_accounting wfd0 s file_path n)
    as (Ha & Hm & Hf & Hs).
  fold st in Ha, Hm, Hf, Hs. unfold Windows.release. rewrite Hf.
  destruct st as [s1 it]. simpl in *.
  destruct s as [a m t], s1 as [a1 m1 t1]. simpl in *. subst a1 m1.
  destruct (Windows.handle_ it) as [h|].
  - destruct Hs as (Hn & Hsome & Hdel). unfold Windows.FindClose. simpl.
    unfold Windows.with_searches. simpl. rewrite Hdel.
    split; [done|]. split; [done|]. by intros h' [= <-].
  - subst t1. split; [done|]. split; [done|]. done.
Qed.

Lemma windows_release_restores_the_system_witness :
  Windows.release
    (Windows.advance 1
       (Windows.directory_iterator_at Fixtures.win_junk Fixtures.win_system
          "C:\d")).1
    (Windows.advance 1
       (Windows.directory_iterator_at Fixtures.win_junk Fixtures.win_system
          "C:\d")).2
  = Fixtures.win_system /\
  Windows.searches Fixtures.win_system !! 0 = None /\
  is_Some
    (Windows.searches
       (Windows.directory_iterator_at Fixtures.win_junk Fixtures.win_system
          "C:\d").1 !! 0).
Proof.
  split.
  - exact (proj1 (windows_release_restores_the_system Fixtures.win_junk
                    Fixtures.win_system "C:\d" 1)).
  - refine (proj2 (proj2 (windows_release_restores_the_system
                            Fixtures.win_junk Fixtures.win_system "C:\d" 0))
              0 _).
    vm_compute. reflexivity.
Defined.

(** X6: on Linux the directory handle is lost in one case only.  When
    [opendir] succeeds and the directory stream is empty (the first
    [readdir] returns null) the constructor neither closes the handle nor
    stores it: the iterator owns no handle and the handle stays open after
    its destruction.  In every other case, however far the iterator was
    advanced, destroying it leaves the system exactly as it was before the
    construction. *)
Theorem linux_release_and_the_empty_stream :
  forall wfd_ s file_path n,
    let st := Linux.advance wfd_ n (Linux.directory_iterator_at s file_path) in
    match Linux.directories s (Linux.directory_path file_path) with
    | Some [] =>
        Linux.handle_ st.2 = None /\ Linux.find_ptr_ st.2 = None /\
        Linux.streams (Linux.release st.1 st.2)
        = <[fresh (dom (Linux.streams s)) := []]> (Linux.streams s)
    | _ => Linux.release st.1 st.2 = s
    end.
Proof.
  intros wfd_ s file_path n st.
  pose proof (LinuxMore.lin_handle_accounting wfd_ s file_path n)
    as (Ha & Hm & Hf & Hs).
  fold st in Ha, Hm, Hf, Hs. unfold Linux.left_open in Hs.
  assert (Hclosed :
    match Linux.handle_ st.2 with
    | Some h => True
    | None => Linux.streams st.1 = Linux.streams s
    end -> Linux.release st.1 st.2 = s).
  { unfold Linux.release. rewrite Hf. destruct st as [s1 it]. simpl in *.
    destruct s as [a m t], s1 as [a1 m1 t1]. simpl in *. subst a1 m1.
    destruct (Linux.handle_ it) as [h|].
    - intros _. destruct Hs as (_ & _ & Hdel).
      unfold Linux.closedir. simpl. by rewrite Hdel.
    - by intros ->. }
  destruct (Linux.directories s (Linux.directory_path file_path))
    as [[|e l]|] eqn:Hd.
  - pose proof (LinuxMore.lin_at_entries s file_path) as H.
    simpl in H. rewrite Hd in H. simpl in H. destruct H as (He & Hh & _).
    assert (Hst : st = Linux.directory_iterator_at s file_path).
    { unfold st.
      destruct (Linux.directory_iterator_at s file_path) as [s0 it0].
      simpl in *. apply LinuxMore.lin_advance_at_end; [done | congruence]. }
    rewrite Hst in *. rewrite Hh in Hs. unfold Linux.release.
    rewrite Hf, Hh. done.
  - apply Hclosed. by destruct (Linux.handle_ st.2).
  - apply Hclosed. by destruct (Linux.handle_ st.2).
Qed.

(** X7: an increment, prefix or postfix, leaves the file system as it is,
    opens and closes no handle, and changes nothing that is pending on a
    handle other than the iterator's own: iterators over different handles
    do not disturb each other. *)
Theorem increment_touches_only_its_own_handle :
  (forall i s it,
     let r := Windows.step i (s, it) in
     Windows.attributes r.1 = Windows.attributes s /\
     Windows.matching r.1 = Windows.matching s /\
     dom (Windows.searches r.1) = dom (Windows.searches s) /\
     forall h', Windows.handle_ it <> Some h' ->
       Windows.searches r.1 !! h' = Windows.searches s !! h') /\
  (forall wfd_ i s it,
     let r := Linux.step wfd_ i (s, it) in
     Linux.directories r.1 = Linux.directories s /\
     Linux.inodes r.1 = Linux.inodes s /\
     dom (Linux.streams r.1) = dom (Linux.streams s) /\
     forall h', Linux.handle_ it <> Some h' ->
       Linux.streams r.1 !! h' = Linux.streams s !! h').
Proof.
  split.
  - intros i s it r. subst r. rewrite WindowsFacts.win_step_read.
    apply WindowsMore.win_read_frame.
  - intros wfd_ i s it r. subst r. rewrite LinuxFacts.lin_step_read.
    apply LinuxMore.lin_read_frame.
Qed.

Lemma increment_touches_only_its_own_handle_witness :
  Windows.searches
    (Windows.step pre_increment
       (Windows.directory_iterator_at Fixtures.win_junk Fixtures.win_system
          "C:\d")).1 !! 1
  = Windows.searches
      (Windows.directory_iterator_at Fixtures.win_junk Fixtures.win_system
         "C:\d").1 !! 1.
Proof.
  pose proof (proj1 increment_touches_only_its_own_handle pre_increment
                (Windows.directory_iterator_at Fixtures.win_junk
                   Fixtures.win_system "C:\d").1
                (Windows.directory_iterator_at Fixtures.win_junk
                   Fixtures.win_system "C:\d").2) as H.
  rewrite <- surjective_pairing in H.
  apply (proj2 (proj2 (proj2 H))). vm_compute. discriminate.
Defined.

(** * The end state, once more *)

(** X10: for an iterator reached from a construction the end state is a
    fixed point of the increments: once at end, whether by a failed open,
    by an empty directory or by exhaustion, a further increment changes
    neither the system nor any member of the iterator; the entry it
    stores stays the last one it produced. *)
Theorem end_is_a_fixed_point_of_increment :
  (forall wfd0 s file_path n i,
     let st := Windows.advance n (Windows.directory_iterator_at wfd0 s file_path) in
     Windows.end_ st.2 = true -> Windows.step i st = st) /\
  (forall wfd_ s file_path n i,
     let st := Linux.advance wfd_ n (Linux.directory_iterator_at s file_path) in
     Linux.end_ st.2 = true -> Linux.step wfd_ i st = st).
Proof.
  split.
  - intros wfd0 s file_path n i st He.
    pose proof (WindowsMore.win_end_nothing_pending wfd0 s file_path n He)
      as Hp.
    fold st in Hp. rewrite WindowsFacts.win_step_read.
    destruct st as [s1 it]. by apply WindowsMore.win_read_at_end.
  - intros wfd_ s file_path n i st He.
    pose proof (LinuxMore.lin_end_nothing_pending wfd_ s file_path n He)
      as Hp.
    fold st in Hp. rewrite LinuxFacts.lin_step_read.
    destruct st as [s1 it]. by apply LinuxMore.lin_read_at_end.
Qed.

Lemma end_is_a_fixed_point_of_increment_witness :
  Windows.step post_increment
    (Windows.advance 1
       (Windows.directory_iterator_at Fixtures.win_junk Fixtures.win_system
          "C:\d"))
  = Windows.advance 1
      (Windows.directory_iterator_at Fixtures.win_junk Fixtures.win_system
         "C:\d") /\
  Linux.step Fixtures.win_junk pre_increment
    (Linux.advance Fixtures.win_junk 2
       (Linux.directory_iterator_at Fixtures.linux_system "/d"))
  = Linux.advance Fixtures.win_junk 2
      (Linux.directory_iterator_at Fixtures.linux_system "/d").
Proof.
  split.
  - refine (proj1 end_is_a_fixed_point_of_increment Fixtures.win_junk
              Fixtures.win_system "C:\d" 1 post_increment _).
    vm_compute. reflexivity.
  - refine (proj2 end_is_a_fixed_point_of_increment Fixtures.win_junk
              Fixtures.linux_system "/d" 2 pre_increment _).
    vm_compute. reflexivity.
Defined.

(** * Equality, once more *)

Lemma after_last_separator_free (sep : ascii -> bool) (s : string) :
  free_of sep s -> after_last_separator sep s = None.
Proof.
  induction s as [|a s IH]; simpl; [done|].
  intros [Ha Hs]. by rewrite (IH Hs), Ha.
Qed.

Lemma path_name_free (sep : ascii -> bool) (s : string) :
  free_of sep s -> path_name sep {| text_ := s |} = s.
Proof.
  intros H. unfold path_name. simpl. by rewrite after_last_separator_free.
Qed.

(** X8: [operator==] is reflexive and symmetric and [operator!=] is its
    negation, but [operator==] is not transitive: two iterators at end are
    equal whatever they store, and an iterator at end is equal to a live
    one that stores the same name. *)
Theorem equality_is_reflexive_symmetric_not_transitive :
  (forall x, Windows.op_eq x x = true) /\
  (forall x y, Windows.op_eq x y = Windows.op_eq y x) /\
  (forall x y, Windows.op_ne x y = negb (Windows.op_eq x y)) /\
  ~ (forall x y z, Windows.op_eq x y = true -> Windows.op_eq y z = true ->
                   Windows.op_eq x z = true) /\
  (forall x, Linux.op_eq x x = true) /\
  (forall x y, Linux.op_eq x y = Linux.op_eq y x) /\
  (forall x y, Linux.op_ne x y = negb (Linux.op_eq x y)) /\
  ~ (forall x y z, Linux.op_eq x y = true -> Linux.op_eq y z = true ->
                   Linux.op_eq x z = true).
Proof.
  repeat apply conj.
  - intros x. unfold Windows.op_eq, Windows.equal.
    rewrite String.eqb_refl. by destruct (Windows.end_ x).
  - intros x y. unfold Windows.op_eq, Windows.equal.
    rewrite (String.eqb_sym (Windows.name (m_path (Windows.value_ x)))).
    by destruct (Windows.end_ x), (Windows.end_ y).
  - reflexivity.
  - intros H.
    specialize (H
      {| Windows.end_ := true; Windows.wfd_ := Fixtures.win_junk;
         Windows.path_ := ""; Windows.find_ptr_ := None;
         Windows.handle_ := None; Windows.value_ := value_type "a" false 0 |}
      {| Windows.end_ := true; Windows.wfd_ := Fixtures.win_junk;
         Windows.path_ := ""; Windows.find_ptr_ := None;
         Windows.handle_ := None; Windows.value_ := value_type "b" false 0 |}
      {| Windows.end_ := false; Windows.wfd_ := Fixtures.win_junk;
         Windows.path_ := ""; Windows.find_ptr_ := None;
         Windows.handle_ := None; Windows.value_ := value_type "b" false 0 |}
      eq_refl eq_refl).
    discriminate.
  - intros x. unfold Linux.op_eq, Linux.equal.
    rewrite String.eqb_refl. by destruct (Linux.end_ x).
  - intros x y. unfold Linux.op_eq, Linux.equal.
    rewrite (String.eqb_sym (Linux.name (m_path (Linux.value_ x)))).
    by destruct (Linux.end_ x), (Linux.end_ y).
  - reflexivity.
  - intros H.
    specialize (H
      {| Linux.end_ := true; Linux.path_ := ""; Linux.find_ptr_ := None;
         Linux.handle_ := None; Linux.value_ := value_type "a" false 0 |}
      {| Linux.end_ := true; Linux.path_ := ""; Linux.find_ptr_ := None;
         Linux.handle_ := None; Linux.value_ := value_type "b" false 0 |}
      {| Linux.end_ := false; Linux.path_ := ""; Linux.find_ptr_ := None;
         Linux.handle_ := None; Linux.value_ := value_type "b" false 0 |}
      eq_refl eq_refl).
    discriminate.
Qed.

(** X9: the loop [for(directory_iterator it(dir); it != directory_iterator();
    ++it)] is sound on Windows: when no name the search pattern matches
    holds a separator, the iterator after [j] advances differs from the
    default-constructed end iterator exactly when [j] is less than the
    number of qualifying entries, so the loop body runs once for each of
    them and the loop stops.  On Linux the same holds for the first
    test of the loop, right after the construction. *)
Theorem loop_against_the_end_sentinel :
  (forall wfd0 wfd1 s file_path j,
     let l := Windows.matching s (Windows.search_pattern s file_path) in
     Forall (fun e => free_of Windows.is_separator (cFileName e)) l ->
     Windows.op_ne
       (Windows.advance j (Windows.directory_iterator_at wfd0 s file_path)).2
       (Windows.directory_iterator_end wfd1)
     = (j <? length (qualifying_entries cFileName l))%nat) /\
  (forall s file_path l,
     Linux.directories s (Linux.directory_path file_path) = Some l ->
     Forall (fun e => free_of Linux.is_separator (Linux.d_name e)) l ->
     Linux.op_ne (Linux.directory_iterator_at s file_path).2
       Linux.directory_iterator_end
     = (0 <? length (qualifying_entries Linux.d_name l))%nat).
Proof.
  split.
  - intros wfd0 wfd1 s file_path j l Hfree.
    set (st := Windows.advance j
                 (Windows.directory_iterator_at wfd0 s file_path)).
    assert (Hend : Windows.end_ st.2
                   = (length (qualifying_entries cFileName l) <=? j)%nat).
    { pose proof (WindowsMore.win_at_entries wfd0 s file_path) as H.
      simpl in H. fold l in H. subst st.
      destruct (Windows.directory_iterator_at wfd0 s file_path) as [s0 it0].
      simpl in H. destruct (qualifying_entries cFileName l) as [|e q'].
      - destruct H as (He & Hh & _).
        rewrite WindowsMore.win_advance_at_end; [done | done | congruence].
      - destruct H as (He & _ & h & Hh & Hq).
        destruct (WindowsMore.win_advance_values j s0 it0 h Hh He) as [H1 _].
        by rewrite Hq in H1. }
    rewrite Nat.ltb_antisym, <- Hend.
    unfold Windows.op_ne, Windows.op_eq, Windows.equal. f_equal.
    destruct (Windows.end_ st.2) eqn:He; [done|]. simpl.
    destruct (win_surfaced (fun n => n <> "") not_ignored_not_empty
                wfd0 s file_path j He) as (_ & e & Hin & Hne & Hv).
    fold st in Hv. rewrite Hv. unfold Windows.name. simpl.
    rewrite path_name_free.
    + by apply String.eqb_neq.
    + rewrite Forall_forall in Hfree. by apply Hfree.
  - intros s file_path l Hd Hfree.
    pose proof (LinuxMore.lin_at_entries s file_path) as H.
    simpl in H. rewrite Hd in H.
    unfold Linux.op_ne, Linux.op_eq, Linux.equal.
    destruct (qualifying_entries Linux.d_name l) as [|e q'] eqn:Eq.
    + destruct H as (He & _). by rewrite He.
    + destruct H as (He & _ & Hv & _). rewrite He, Hv. simpl.
      assert (Hq : In e (qualifying_entries Linux.d_name l))
        by (rewrite Eq; by left).
      unfold qualifying_entries in Hq.
      apply List.filter_In in Hq as [Hin Hq].
      apply list_elem_of_In in Hin.
      assert (Hne : Linux.d_name e <> "")
        by (by apply not_ignored_not_empty, negb_true_iff).
      unfold Linux.name.
      replace (m_path (Linux.prepared_entry s
                 (Linux.directory_path file_path) e))
        with {| text_ := Linux.d_name e |}.
      * rewrite path_name_free.
        -- apply negb_true_iff. by apply String.eqb_neq.
        -- rewrite Forall_forall in Hfree. by apply Hfree.
      * unfold Linux.prepared_entry. by destruct (Linux.stat s _).
Qed.

Lemma loop_against_the_end_sentinel_witness :
  Windows.op_ne
    (Windows.advance 1
       (Windows.directory_iterator_at Fixtures.win_junk Fixtures.win_system
          "C:\d")).2
    (Windows.directory_iterator_end Fixtures.win_junk)
  = false.
Proof.
  refine (proj1 loop_against_the_end_sentinel Fixtures.win_junk
            Fixtures.win_junk Fixtures.win_system "C:\d" 1 _).
  vm_compute. repeat constructor.
Defined.

(** * The directory name on Linux *)

Lemma back_app_slash (p : string) : Linux.back (p ++ "/") = "/"%char.
Proof.
  induction p as [|a p IH]; [done|].
  change (String a p ++ "/") with (String a (p ++ "/")).
  simpl. destruct (p ++ "/") eqn:E; [by destruct p | exact IH].
Qed.

Lemma directory_path_cases (p : string) :
  (p = "" /\ Linux.directory_path p = "") \/
  (p <> "" /\ Linux.back p = "/"%char /\ Linux.directory_path p = p) \/
  (p <> "" /\ Linux.back p <> "/"%char /\ Linux.directory_path p = p ++ "/").
Proof.
  unfold Linux.directory_path, charset. destruct p as [|a p]; [by left|].
  right. change (String.length (String a p) =? 0)%nat with false.
  cbn [negb andb].
  destruct (Ascii.eqb_spec (Linux.back (String a p)) "/") as [E|E];
    cbn [negb]; [left | right]; by repeat split.
Qed.

(** X11: on Linux a trailing slash of the directory name is irrelevant.
    The name that is opened is the given one with a slash appended unless
    it is empty or ends in one, so normalising twice changes nothing, a
    non-empty name is opened under a name that ends in a slash, and
    constructing from the normalised name gives the same system and the
    same iterator as constructing from the given name. *)
Theorem trailing_slash_is_irrelevant :
  (forall p, Linux.directory_path (Linux.directory_path p)
             = Linux.directory_path p) /\
  (forall p, p <> "" -> Linux.back (Linux.directory_path p) = "/"%char) /\
  (forall p, p <> "" -> Linux.back p <> "/"%char ->
     Linux.directory_path (p ++ "/") = Linux.directory_path p) /\
  (forall s p, Linux.directory_iterator_at s (Linux.directory_path p)
               = Linux.directory_iterator_at s p).
Proof.
  assert (Hidem : forall p, Linux.directory_path (Linux.directory_path p)
                            = Linux.directory_path p).
  { intros p.
    destruct (directory_path_cases p)
      as [[-> ->]|[(Hp & Hb & ->)|(Hp & Hb & ->)]]; [done| |].
    - destruct (directory_path_cases p)
        as [[? _]|[(_ & _ & ?)|(_ & ? & _)]]; done.
    - destruct (directory_path_cases (p ++ "/"))
        as [[E _]|[(_ & _ & ?)|(_ & E & _)]]; [|done|].
      + by destruct p.
      + by rewrite back_app_slash in E. }
  split; [exact Hidem|]. split; [|split].
  - intros p Hp.
    destruct (directory_path_cases p)
      as [[? _]|[(_ & Hb & ->)|(_ & _ & ->)]]; [done | done |].
    apply back_app_slash.
  - intros p Hp Hb.
    destruct (directory_path_cases p)
      as [[? _]|[(_ & ? & _)|(_ & _ & E)]]; [done | done |].
    by rewrite <- E, Hidem.
  - intros s p. unfold Linux.directory_iterator_at, Linux._m_prepare.
    by rewrite Hidem.
Qed.

Lemma trailing_slash_is_irrelevant_witness :
  Linux.directory_path ("/d" ++ "/") = Linux.directory_path "/d".
Proof.
  refine (proj1 (proj2 (proj2 trailing_slash_is_irrelevant)) "/d" _ _).
  - discriminate.
  - vm_compute. discriminate.
Defined.

(** * The entry built from a find data *)

Lemma land_directory_bit (a : Z) :
  (Z.land FILE_ATTRIBUTE_DIRECTORY a =? FILE_ATTRIBUTE_DIRECTORY)%Z
  = Z.testbit a 4.
Proof.
  unfold FILE_ATTRIBUTE_DIRECTORY. change 16%Z with (2 ^ 4)%Z.
  assert (H : Z.land (2 ^ 4) a = if Z.testbit a 4 then (2 ^ 4)%Z else 0%Z).
  { apply Z.bits_inj'. intros k Hk. rewrite Z.land_spec.
    rewrite Z.pow2_bits_eqb by lia.
    destruct (Z.eqb_spec 4 k) as [<-|Hne].
    - destruct (Z.testbit a 4); [by rewrite Z.pow2_bits_eqb by lia|].
      by rewrite Z.bits_0.
    - destruct (Z.testbit a 4).
      + rewrite Z.pow2_bits_eqb by lia. symmetry. by apply Z.eqb_neq.
      + by rewrite Z.bits_0. }
  rewrite H. by destruct (Z.testbit a 4).
Qed.

(** X12: the entry built from a find data has the name of the find data;
    it is a directory exactly when bit 4 ([FILE_ATTRIBUTE_DIRECTORY]) of
    the attributes is set, whatever the other attribute bits are; and its
    size is the low double word alone, so for a find data whose size
    fields are double words it is the byte length modulo [2^32]: the
    length of a file of 4 GiB or more is not reported. *)
Theorem find_data_entry_reads_directory_bit_and_low_size :
  forall wfd,
    text_ (m_path (entry_of_find_data wfd)) = cFileName wfd /\
    directory (entry_of_find_data wfd) = Z.testbit (dwFileAttributes wfd) 4 /\
    ((0 <= nFileSizeLow wfd < 2 ^ 32)%Z ->
     size (entry_of_find_data wfd) = (file_size wfd mod 2 ^ 32)%Z).
Proof.
  intros wfd. split; [done|]. split.
  - unfold entry_of_find_data. simpl. apply land_directory_bit.
  - intros Hlow. unfold entry_of_find_data, file_size. simpl.
    rewrite Z.add_comm, Z.mod_add by lia. symmetry. by apply Z.mod_small.
Qed.

Lemma find_data_entry_reads_directory_bit_and_low_size_witness :
  size (entry_of_find_data
          {| dwFileAttributes := 32; nFileSizeHigh := 1; nFileSizeLow := 10;
             cFileName := "big" |})
  = (file_size
       {| dwFileAttributes := 32; nFileSizeHigh := 1; nFileSizeLow := 10;
          cFileName := "big" |} mod 2 ^ 32)%Z.
Proof.
  refine (proj2 (proj2 (find_data_entry_reads_directory_bit_and_low_size _)) _).
  simpl. lia.
Defined.

(** * Separately constructed iterators *)

(** What [_m_read] stores in the iterator depends on the system only
    through the entries pending on the iterator's handle. *)
Lemma win_read_depends_on_pending (s s' : Windows.system)
    (it : Windows.directory_iterator) :
  (forall h, Windows.handle_ it = Some h ->
     Windows.searches s !! h = Windows.searches s' !! h) ->
  (Windows._m_read s it).2 = (Windows._m_read s' it).2.
Proof.
  intros H. unfold Windows._m_read, Windows.FindNextFile.
  destruct (Windows.handle_ it) as [h|]; [|done].
  rewrite <- (H h eq_refl).
  destruct (Windows.searches s !! h) as [[|e rest]|]; [done| |done].
  unfold Windows.skip, Windows.pending. simpl. rewrite !lookup_insert_eq.
  simpl. by destruct (Windows.skip_ignored e rest) as [[[|] wfd'] rest'].
Qed.

Lemma lin_read_depends_on_pending (wfd_ : WIN32_FIND_DATA)
    (s s' : Linux.system) (it : Linux.directory_iterator) :
  Linux.inodes s = Linux.inodes s' ->
  (forall h, Linux.handle_ it = Some h ->
     Linux.streams s !! h = Linux.streams s' !! h) ->
  (Linux._m_read wfd_ s it).2 = (Linux._m_read wfd_ s' it).2.
Proof.
  intros Hi H. unfold Linux._m_read, Linux.readdir.
  destruct (Linux.handle_ it) as [h|]; [|done].
  rewrite <- (H h eq_refl).
  destruct (Linux.streams s !! h) as [[|e rest]|]; [done| |done].
  unfold Linux.skip, Linux.pending, Linux.stat. simpl.
  rewrite !lookup_insert_eq. simpl.
  destruct (Linux.skip_ignored e rest) as [[[|] dnt'] rest']; simpl; [|done].
  rewrite Hi. by destruct (Linux.inodes s' _).
Qed.

(** Advancing an iterator leaves what is pending on any other handle. *)
Lemma win_advance_other_handle (n : nat) : forall s it h,
  Windows.handle_ it <> Some h ->
  Windows.searches (Windows.advance n (s, it)).1 !! h
  = Windows.searches s !! h.
Proof.
  induction n as [|n IH]; intros s it h Hne; simpl; [done|].
  pose proof (WindowsMore.win_read_frame s it) as (_ & _ & _ & Hf).
  simpl in Hf.
  assert (Hh : Windows.handle_ (Windows._m_read s it).2 = Windows.handle_ it).
  { destruct (Windows.handle_ it) as [h0|] eqn:E.
    - by destruct (WindowsFacts.win_m_read_spec s it h0 E) as (-> & _).
    - unfold Windows._m_read. by rewrite E. }
  destruct (Windows._m_read s it) as [s1 it1]. simpl in *.
  rewrite IH by (by rewrite Hh). by apply Hf.
Qed.

Lemma lin_advance_other_handle (wfd_ : WIN32_FIND_DATA) (n : nat) :
  forall s it h,
  Linux.handle_ it <> Some h ->
  Linux.streams (Linux.advance wfd_ n (s, it)).1 !! h = Linux.streams s !! h /\
  Linux.inodes (Linux.advance wfd_ n (s, it)).1 = Linux.inodes s.
Proof.
  induction n as [|n IH]; intros s it h Hne; simpl; [done|].
  pose proof (LinuxMore.lin_read_frame wfd_ s it) as (_ & Hi & _ & Hf).
  simpl in Hf, Hi.
  assert (Hh : Linux.handle_ (Linux._m_read wfd_ s it).2 = Linux.handle_ it).
  { destruct (Linux.handle_ it) as [h0|] eqn:E.
    - by destruct (LinuxFacts.lin_m_read_spec wfd_ s it h0 E) as (-> & _).
    - unfold Linux._m_read. by rewrite E. }
  destruct (Linux._m_read wfd_ s it) as [s1 it1]. simpl in *.
  destruct (IH s1 it1 h) as [IH1 IH2]; [by rewrite Hh|].
  rewrite IH1, IH2, Hi. split; [by apply Hf | done].
Qed.

(** X13: iterators that were constructed separately do not share a
    cursor.  When a second iterator is constructed after a first one,
    over the same or another directory, and advanced any number of times,
    an increment of the first one stores in it exactly what it would have
    stored had the second one never existed. *)
Theorem separately_constructed_iterators_are_independent :
  (forall wfd0 wfd1 s file_path file_path' n,
     let x := Windows.directory_iterator_at wfd0 s file_path in
     let y := Windows.directory_iterator_at wfd1 x.1 file_path' in
     let st := Windows.advance n y in
     (Windows._m_read st.1 x.2).2 = (Windows._m_read x.1 x.2).2) /\
  (forall wfd_ s file_path file_path' n,
     let x := Linux.directory_iterator_at s file_path in
     let y := Linux.directory_iterator_at x.1 file_path' in
     let st := Linux.advance wfd_ n y in
     (Linux._m_read wfd_ st.1 x.2).2 = (Linux._m_read wfd_ x.1 x.2).2).
Proof.
  split.
  - intros wfd0 wfd1 s file_path file_path' n x y st.
    apply win_read_depends_on_pending. intros h Hh.
    pose proof (WindowsMore.win_handle_accounting wfd0 s file_path 0)
      as (_ & _ & _ & Hx).
    simpl in Hx. fold x in Hx. rewrite Hh in Hx.
    destruct Hx as (_ & Hopen & _).
    pose proof (WindowsMore.win_handle_accounting wfd1 x.1 file_path' 0)
      as (_ & _ & _ & Hy).
    simpl in Hy. fold y in Hy. subst st. destruct y as [s2 ity]. simpl in *.
    assert (Hne : Windows.handle_ ity <> Some h).
    { intros E. rewrite E in Hy. destruct Hy as (Hy & _).
      rewrite Hy in Hopen. by destruct Hopen. }
    rewrite win_advance_other_handle by done.
    destruct (Windows.handle_ ity) as [h'|].
    + destruct Hy as (_ & _ & <-). rewrite lookup_delete_ne; [done|congruence].
    + by rewrite Hy.
  - intros wfd_ s file_path file_path' n x y st.
    pose proof (LinuxMore.lin_handle_accounting wfd_ x.1 file_path' 0)
      as (_ & Hi & _ & Hy).
    simpl in Hy, Hi. fold y in Hy, Hi.
    destruct (Linux.handle_ x.2) as [h|] eqn:Hh.
    2:{ unfold Linux._m_read. by rewrite Hh. }
    pose proof (LinuxMore.lin_handle_accounting wfd_ s file_path 0)
      as (_ & _ & _ & Hx).
    simpl in Hx. fold x in Hx. rewrite Hh in Hx.
    destruct Hx as (_ & Hopen & _).
    subst st. destruct y as [s2 ity]. simpl in *.
    assert (Hne : Linux.handle_ ity <> Some h).
    { intros E. rewrite E in Hy. destruct Hy as (Hy & _).
      rewrite Hy in Hopen. by destruct Hopen. }
    destruct (lin_advance_other_handle wfd_ n s2 ity h Hne) as [Hs Hin].
    apply lin_read_depends_on_pending; [congruence|].
    intros h0 Hh0. assert (h0 = h) as -> by congruence. rewrite Hs.
    destruct (Linux.handle_ ity) as [h'|].
    + destruct Hy as (_ & _ & <-). rewrite lookup_delete_ne; [done|congruence].
    + rewrite Hy. unfold Linux.left_open.
      destruct (Linux.directories x.1 (Linux.directory_path file_path'))
        as [[|e l]|]; [|done|done].
      rewrite lookup_insert_ne; [done|].
      intros E. rewrite <- E in Hopen.
      pose proof (is_fresh (dom (Linux.streams x.1))) as Hfresh.
      apply not_elem_of_dom in Hfresh. rewrite Hfresh in Hopen.
      by destruct Hopen.
Qed.
